(** * dts-generator: a shallow embedding of src/index.ts

    Strings of the JavaScript program are modelled as lists of characters
    ([str]); a string literal of the source is written [lit "..."].  The
    TypeScript compiler (parser, emitter, type checker) is an external
    collaborator: its results (syntax trees, emitted files, diagnostics) are
    inputs of the model. *)

From Stdlib Require Import Ascii String Numbers.DecimalString.
From Stdlib Require Import List Arith Lia Bool ZArith.
Import ListNotations.
#[local] Set Warnings "-register-all".

(** ** JavaScript strings *)

Definition str := list ascii.

Definition lit (s : string) : str := list_ascii_of_string s.

(** [s.slice(a, b)] for non-negative [a], [b]: empty when [b <= a]. *)
Definition slice (s : str) (a b : nat) : str := firstn (b - a) (skipn a s).

(** [s.slice(a)] for a non-negative [a]. *)
Definition slice_from (s : str) (a : nat) : str := skipn a s.

(** [s.slice(-n)] for [n > 0]. *)
Definition slice_last (s : str) (n : nat) : str := skipn (length s - n) s.

(** [s.slice(a, -n)] for [a >= 0], [n > 0]. *)
Definition slice_minus (s : str) (a n : nat) : str := slice s a (length s - n).

Definition str_eqb (a b : str) : bool :=
  if list_eq_dec ascii_dec a b then true else false.

(** [s.charAt(0) === c] *)
Definition starts_with_char (c : ascii) (s : str) : bool :=
  match s with
  | x :: _ => if ascii_dec x c then true else false
  | [] => false
  end.

(** [s.indexOf(p) === 0] *)
Fixpoint is_prefix (p s : str) : bool :=
  match p, s with
  | [], _ => true
  | x :: p', y :: s' => if ascii_dec x y then is_prefix p' s' else false
  | _ :: _, [] => false
  end.

(** The double-quote character, which cannot appear in a literal here. *)
Definition dquote : str := [ascii_of_nat 34].

(** Decimal rendering of a non-negative JavaScript number. *)
Definition show_nat (n : nat) : str :=
  lit (NilEmpty.string_of_uint (Nat.to_uint n)).

(** ** TypeScript syntax trees (the part the rewriter observes) *)

Inductive SyntaxKind :=
  | SourceFileKind
  | ExternalModuleReference
  | DeclareKeyword
  | ExportKeyword
  | StringLiteral
  | ExportDeclaration
  | ImportDeclaration
  | ImportEqualsDeclaration
  | VariableStatement
  | VariableDeclarationList
  | VariableDeclaration
  | Identifier
  | NumberKeyword
  | EndOfFileToken
  | OtherKind (tag : nat).

Definition SyntaxKind_eq_dec (a b : SyntaxKind) : {a = b} + {a <> b}.
Proof. decide equality; apply Nat.eq_dec. Defined.

Definition kind_is (a b : SyntaxKind) : bool :=
  if SyntaxKind_eq_dec a b then true else false.

(** A node: [pos] is TypeScript's full start (it includes the leading
    trivia, i.e. whitespace and comments after the previous token), [end_]
    is its end, [parentKind] the kind of [node.parent], [ntext] the [text]
    of a literal, and [children] the nodes [ts.forEachChild] visits, in
    order. *)
Inductive Node : Type := mkNode {
  kind : SyntaxKind;
  pos : nat;
  end_ : nat;
  parentKind : option SyntaxKind;
  ntext : str;
  children : list Node
}.

(** Induction on nodes with a hypothesis for every child. *)
Fixpoint Node_rect' (P : Node -> Prop)
  (H : forall k p e pk t cs, Forall P cs -> P (mkNode k p e pk t cs))
  (n : Node) : P n :=
  match n with
  | mkNode k p e pk t cs =>
      H k p e pk t cs
        ((fix go (cs : list Node) : Forall P cs :=
            match cs with
            | [] => Forall_nil P
            | c :: cs' => Forall_cons c (Node_rect' P H c) (go cs')
            end) cs)
  end.

(** [ts.SourceFile]: the root node is the source file itself. *)
Record SourceFile := {
  fileName : str;
  text : str;
  root : Node;
  externalModuleIndicator : bool
}.

(** Well-formed trees: every node spans [pos <= end_], its children lie in
    that span in order and do not overlap.  The TypeScript parser builds
    trees of this shape. *)
Fixpoint wf_node (n : Node) : bool :=
  (pos n <=? end_ n) &&
  (fix chk (lo : nat) (cs : list Node) : bool :=
     match cs with
     | [] => lo <=? end_ n
     | c :: cs' => (lo <=? pos c) && wf_node c && chk (end_ c) cs'
     end) (pos n) (children n).

Definition wf_source (sf : SourceFile) : bool :=
  wf_node (root sf) && (end_ (root sf) <=? length (text sf)).

(** ** processTree (src/index.ts, lines 66-97) *)

Section ProcessTree.

Variable sourceText : str.
Variable replacer : Node -> option str.

(** The closure state of [processTree]: [code] and [cursorPosition]. *)
Record Walk := { code : str; cursorPosition : nat }.

Definition skip (node : Node) (w : Walk) : Walk :=
  {| code := code w; cursorPosition := end_ node |}.

Definition readThrough (node : Node) (w : Walk) : Walk :=
  {| code := code w ++ slice sourceText (cursorPosition w) (pos node);
     cursorPosition := pos node |}.

Fixpoint visit (node : Node) (w : Walk) {struct node} : Walk :=
  let w := readThrough node w in
  match replacer node with
  | Some replacement =>
      skip node {| code := code w ++ replacement;
                   cursorPosition := cursorPosition w |}
  | None =>
      (fix forEachChild (cs : list Node) (w : Walk) : Walk :=
         match cs with
         | [] => w
         | c :: cs' => forEachChild cs' (visit c w)
         end) (children node) w
  end.

(** The pieces the output is made of: a span of the source copied through,
    or a node whose span is replaced by a string. *)
Inductive Piece :=
  | Kept (a b : nat)
  | Replaced (node : Node) (replacement : str).

Definition render (p : Piece) : str :=
  match p with
  | Kept a b => slice sourceText a b
  | Replaced _ r => r
  end.

Definition span_start (p : Piece) : nat :=
  match p with Kept a _ => a | Replaced n _ => pos n end.

Definition span_end (p : Piece) : nat :=
  match p with Kept _ b => b | Replaced n _ => end_ n end.

(** [tiles a b ps]: the spans of [ps] follow each other from [a] to [b]
    with no gap and no overlap. *)
Fixpoint tiles (a b : nat) (ps : list Piece) : Prop :=
  match ps with
  | [] => a = b
  | p :: ps' => span_start p = a /\ span_start p <= span_end p /\
                tiles (span_end p) b ps'
  end.

(** The pieces of one [visit], from cursor [cur]; returns the new cursor. *)
Fixpoint trace_visit (node : Node) (cur : nat) {struct node} : list Piece * nat :=
  match replacer node with
  | Some r => ([Kept cur (pos node); Replaced node r], end_ node)
  | None =>
      let '(ps, c) :=
        (fix go (cs : list Node) (cur : nat) : list Piece * nat :=
           match cs with
           | [] => ([], cur)
           | c :: cs' =>
               let '(p1, c1) := trace_visit c cur in
               let '(p2, c2) := go cs' c1 in (p1 ++ p2, c2)
           end) (children node) (pos node) in
      (Kept cur (pos node) :: ps, c)
  end.

End ProcessTree.

Definition processTree (sourceFile : SourceFile) (replacer : Node -> option str) : str :=
  let w := visit (text sourceFile) replacer (root sourceFile)
             {| code := []; cursorPosition := 0 |} in
  code w ++ slice_from (text sourceFile) (cursorPosition w).

Definition trace (sourceFile : SourceFile) (replacer : Node -> option str) : list Piece :=
  let '(ps, c) := trace_visit replacer (root sourceFile) 0 in
  ps ++ [Kept c (length (text sourceFile))].

Definition render_all (sourceText : str) (ps : list Piece) : str :=
  flat_map (render sourceText) ps.

(** The loops of [visit], [trace_visit] and [wf_node] as plain recursions. *)
Fixpoint trace_list (f : Node -> nat -> list Piece * nat) (cs : list Node) (cur : nat)
  : list Piece * nat :=
  match cs with
  | [] => ([], cur)
  | c :: cs' =>
      let '(p1, c1) := f c cur in
      let '(p2, c2) := trace_list f cs' c1 in (p1 ++ p2, c2)
  end.

Fixpoint chain (f : Node -> bool) (lo : nat) (cs : list Node) (hi : nat) : bool :=
  match cs with
  | [] => lo <=? hi
  | c :: cs' => (lo <=? pos c) && f c && chain f (end_ c) cs' hi
  end.

(** ** Characters *)

Definition LF : ascii := ascii_of_nat 10.
Definition CR : ascii := ascii_of_nat 13.
Definition TAB : ascii := ascii_of_nat 9.
Definition CHAR_DOT : ascii := "."%char.
Definition CHAR_FORWARD_SLASH : ascii := "/"%char.

Definition ascii_eqb (a b : ascii) : bool := if ascii_dec a b then true else false.

(** ** Node's [path] module, POSIX flavour (lib/path.js)

    [path] is the host's path module, an external collaborator; the
    definitions below follow Node's POSIX implementation and are used to
    evaluate the program on concrete inputs. *)

(** [s.lastIndexOf(c)], [-1] when absent. *)
Fixpoint lastIndexOf_from (s : str) (c : ascii) (i acc : Z) : Z :=
  match s with
  | [] => acc
  | x :: s' => lastIndexOf_from s' c (i + 1) (if ascii_eqb x c then i else acc)
  end.

Definition lastIndexOf (s : str) (c : ascii) : Z := lastIndexOf_from s c 0 (-1).

(** [s.charCodeAt(i) === c] *)
Definition char_at_is (s : str) (i : Z) (c : ascii) : bool :=
  match i with
  | Z0 | Zpos _ => match nth_error s (Z.to_nat i) with
                   | Some x => ascii_eqb x c
                   | None => false
                   end
  | Zneg _ => false
  end.

(** The local state of [normalizeString]. *)
Record NSState := {
  res : str;
  lastSegmentLength : Z;
  lastSlash : Z;
  dots : Z
}.

Section NormalizeString.

Variable path : str.
Variable allowAboveRoot : bool.
Variable separator : ascii.
Variable isPathSeparator : ascii -> bool.

(** One iteration of the loop of [normalizeString] at index [i]. *)
Definition ns_step (i : nat) (code : ascii) (st : NSState) : NSState :=
  let zi := Z.of_nat i in
  let done r l := {| res := r; lastSegmentLength := l; lastSlash := zi; dots := 0 |} in
  if isPathSeparator code then
    if (lastSlash st =? zi - 1)%Z || (dots st =? 1)%Z then
      done (res st) (lastSegmentLength st)
    else if (dots st =? 2)%Z then
      let r := res st in
      let rl := Z.of_nat (length r) in
      let cond := (rl <? 2)%Z || negb (lastSegmentLength st =? 2)%Z ||
                  negb (char_at_is r (rl - 1) CHAR_DOT) ||
                  negb (char_at_is r (rl - 2) CHAR_DOT) in
      if cond && (2 <? rl)%Z then
        let lastSlashIndex := lastIndexOf r separator in
        if (lastSlashIndex =? -1)%Z then done [] 0%Z
        else
          let r' := firstn (Z.to_nat lastSlashIndex) r in
          done r' (Z.of_nat (length r') - 1 - lastIndexOf r' separator)%Z
      else if cond && negb (rl =? 0)%Z then done [] 0%Z
      else if allowAboveRoot then
        done (r ++ (if (0 <? rl)%Z then [separator; CHAR_DOT; CHAR_DOT]
                    else [CHAR_DOT; CHAR_DOT])) 2%Z
      else done r (lastSegmentLength st)
    else
      let r := res st in
      let seg := slice path (Z.to_nat (lastSlash st + 1)) i in
      done (if (0 <? Z.of_nat (length r))%Z then r ++ separator :: seg else seg)
           (zi - lastSlash st - 1)%Z
  else if ascii_eqb code CHAR_DOT && negb (dots st =? -1)%Z then
    {| res := res st; lastSegmentLength := lastSegmentLength st;
       lastSlash := lastSlash st; dots := dots st + 1 |}
  else
    {| res := res st; lastSegmentLength := lastSegmentLength st;
       lastSlash := lastSlash st; dots := -1 |}.

(** [for (let i = 0; i <= path.length; ++i)]: [cs] is the rest of [path]
    from index [i], [prev] the last code read. *)
Fixpoint ns_loop (cs : str) (i : nat) (prev : ascii) (st : NSState) : str :=
  match cs with
  | c :: cs' => ns_loop cs' (S i) c (ns_step i c st)
  | [] => if isPathSeparator prev then res st
          else res (ns_step i CHAR_FORWARD_SLASH st)
  end.

Definition normalizeString : str :=
  ns_loop path 0 (ascii_of_nat 0)
    {| res := []; lastSegmentLength := 0; lastSlash := -1; dots := 0 |}.

End NormalizeString.

Definition isPosixPathSeparator (c : ascii) : bool := ascii_eqb c CHAR_FORWARD_SLASH.

Definition last_char_is (s : str) (c : ascii) : bool :=
  match rev s with x :: _ => ascii_eqb x c | [] => false end.

(** [path.posix.normalize] *)
Definition posix_normalize (path : str) : str :=
  match path with
  | [] => [CHAR_DOT]
  | _ =>
    let isAbsolute := starts_with_char CHAR_FORWARD_SLASH path in
    let trailingSeparator := last_char_is path CHAR_FORWARD_SLASH in
    let p := normalizeString path (negb isAbsolute) CHAR_FORWARD_SLASH isPosixPathSeparator in
    match p with
    | [] => if isAbsolute then [CHAR_FORWARD_SLASH]
            else if trailingSeparator then [CHAR_DOT; CHAR_FORWARD_SLASH] else [CHAR_DOT]
    | _ =>
      let p := if trailingSeparator then p ++ [CHAR_FORWARD_SLASH] else p in
      if isAbsolute then CHAR_FORWARD_SLASH :: p else p
    end
  end.

(** [path.posix.join(...args)] *)
Definition posix_join (args : list str) : str :=
  let joined := fold_left (fun acc arg =>
                  match arg with
                  | [] => acc
                  | _ => match acc with
                         | None => Some arg
                         | Some j => Some (j ++ CHAR_FORWARD_SLASH :: arg)
                         end
                  end) args None in
  match joined with
  | None => [CHAR_DOT]
  | Some j => posix_normalize j
  end.

(** The backwards scan of [path.posix.dirname], from index [i] down to 1:
    the index where the directory part ends, if any. *)
Fixpoint dirname_scan (path : str) (i : nat) (matchedSlash : bool) : option nat :=
  match i with
  | 0 => None
  | S k =>
      if char_at_is path (Z.of_nat i) CHAR_FORWARD_SLASH then
        if negb matchedSlash then Some i else dirname_scan path k matchedSlash
      else dirname_scan path k false
  end.

(** [path.posix.dirname] *)
Definition posix_dirname (path : str) : str :=
  match path with
  | [] => [CHAR_DOT]
  | _ =>
    let hasRoot := starts_with_char CHAR_FORWARD_SLASH path in
    match dirname_scan path (length path - 1) true with
    | None => if hasRoot then [CHAR_FORWARD_SLASH] else [CHAR_DOT]
    | Some e =>
        if hasRoot && (e =? 1) then [CHAR_FORWARD_SLASH; CHAR_FORWARD_SLASH]
        else slice path 0 e
    end
  end.

(** [path.posix.resolve(...args)] with [process.cwd()] = [cwd]: walks the
    arguments from the right, then the working directory, until an
    absolute path is reached. *)
Fixpoint resolve_go (paths : list str) (resolvedPath : str) : str * bool :=
  match paths with
  | [] => (resolvedPath, false)
  | [] :: ps => resolve_go ps resolvedPath
  | p :: ps =>
      let rp := p ++ CHAR_FORWARD_SLASH :: resolvedPath in
      if starts_with_char CHAR_FORWARD_SLASH p then (rp, true)
      else resolve_go ps rp
  end.

Definition posix_resolve (cwd : str) (args : list str) : str :=
  let '(resolvedPath, resolvedAbsolute) := resolve_go (rev args ++ [cwd]) [] in
  let r := normalizeString resolvedPath (negb resolvedAbsolute) CHAR_FORWARD_SLASH
             isPosixPathSeparator in
  if resolvedAbsolute then CHAR_FORWARD_SLASH :: r
  else match r with [] => [CHAR_DOT] | _ => r end.

(** ** Node's [path] module, Windows flavour (lib/path.js, [path.win32])

    The functions [generate] calls on a Windows host, following Node's
    win32 implementation (as in Node 18): both ['/'] and ['\'] separate
    path segments, and joined or normalised paths use ['\']. *)

Definition CHAR_BACKWARD_SLASH : ascii := "\"%char.
Definition CHAR_COLON : ascii := ":"%char.

Definition isPathSeparator (c : ascii) : bool :=
  ascii_eqb c CHAR_FORWARD_SLASH || ascii_eqb c CHAR_BACKWARD_SLASH.

Definition isWindowsDeviceRoot (c : ascii) : bool :=
  let n := nat_of_ascii c in ((65 <=? n) && (n <=? 90)) || ((97 <=? n) && (n <=? 122)).

(** [isPathSeparator(s.charCodeAt(i))]; out of range the code is [NaN]. *)
Definition sep_at (s : str) (i : nat) : bool :=
  match nth_error s i with Some c => isPathSeparator c | None => false end.

(** [while (j < len && p(path.charCodeAt(j))) j++] from [j]. *)
Fixpoint count_while (p : ascii -> bool) (s : str) : nat :=
  match s with
  | c :: s' => if p c then S (count_while p s') else 0
  | [] => 0
  end.

Definition skip_while (p : ascii -> bool) (path : str) (j : nat) : nat :=
  j + count_while p (skipn j path).

Definition not_sep (c : ascii) : bool := negb (isPathSeparator c).

(** The root of a path as [win32.normalize] matches it. *)
Inductive Win32Root :=
  | UncOnly (firstPart rest : str)               (* [\\server\share] and nothing more *)
  | Root (rootEnd : nat) (device : option str) (isAbsolute : bool).

Definition win32_root (path : str) : Win32Root :=
  let len := length path in
  match path with
  | code :: _ =>
    if isPathSeparator code then
      if sep_at path 1 then
        let j := skip_while not_sep path 2 in
        if (j <? len) && negb (j =? 2) then
          let firstPart := slice path 2 j in
          let last := j in
          let j := skip_while isPathSeparator path j in
          if (j <? len) && negb (j =? last) then
            let last := j in
            let j := skip_while not_sep path j in
            if j =? len then UncOnly firstPart (slice_from path last)
            else if negb (j =? last) then
              Root j (Some ([CHAR_BACKWARD_SLASH; CHAR_BACKWARD_SLASH] ++ firstPart ++
                            CHAR_BACKWARD_SLASH :: slice path last j)) true
            else Root 0 None true
          else Root 0 None true
        else Root 0 None true
      else Root 1 None true
    else if isWindowsDeviceRoot code && char_at_is path 1 CHAR_COLON then
      if (2 <? len) && sep_at path 2 then Root 3 (Some (firstn 2 path)) true
      else Root 2 (Some (firstn 2 path)) false
    else Root 0 None false
  | [] => Root 0 None false
  end.

(** [path.win32.normalize] *)
Definition win32_normalize (path : str) : str :=
  let len := length path in
  match path with
  | [] => [CHAR_DOT]
  | [code] => if isPosixPathSeparator code then [CHAR_BACKWARD_SLASH] else path
  | _ =>
    match win32_root path with
    | UncOnly firstPart rest =>
        [CHAR_BACKWARD_SLASH; CHAR_BACKWARD_SLASH] ++ firstPart ++
        CHAR_BACKWARD_SLASH :: rest ++ [CHAR_BACKWARD_SLASH]
    | Root rootEnd device isAbsolute =>
        let tail := if rootEnd <? len then
                      normalizeString (slice_from path rootEnd) (negb isAbsolute)
                        CHAR_BACKWARD_SLASH isPathSeparator
                    else [] in
        let tail := match tail with [] => if isAbsolute then [] else [CHAR_DOT] | _ => tail end in
        let tail := match tail with
                    | [] => tail
                    | _ => if sep_at path (len - 1) then tail ++ [CHAR_BACKWARD_SLASH] else tail
                    end in
        match device with
        | None => if isAbsolute then CHAR_BACKWARD_SLASH :: tail else tail
        | Some d => if isAbsolute then d ++ CHAR_BACKWARD_SLASH :: tail else d ++ tail
        end
    end
  end.

(** [path.win32.join(...args)] *)
Definition win32_join (args : list str) : str :=
  let parts := filter (fun a => negb (length a =? 0)) args in
  match parts with
  | [] => [CHAR_DOT]
  | firstPart :: others =>
    let joined := firstPart ++ flat_map (fun a => CHAR_BACKWARD_SLASH :: a) others in
    (* [needsReplace] and the initial [slashCount] *)
    let '(needsReplace, slashCount) :=
      if sep_at firstPart 0 then
        if (1 <? length firstPart) && sep_at firstPart 1 then
          if 2 <? length firstPart then
            if sep_at firstPart 2 then (true, 3) else (false, 2)
          else (true, 2)
        else (true, 1)
      else (true, 0) in
    let joined :=
      if needsReplace then
        let slashCount := skip_while isPathSeparator joined slashCount in
        if 2 <=? slashCount then CHAR_BACKWARD_SLASH :: slice_from joined slashCount
        else joined
      else joined in
    win32_normalize joined
  end.

Definition win32_join2 (a b : str) : str := win32_join [a; b].

(** The backwards scan of [path.win32.dirname] over the indices [i], [i-1],
    ..., down to [offset] ([n] indices in all). *)
Fixpoint win32_dirname_scan (path : str) (n i : nat) (matchedSlash : bool) : option nat :=
  match n with
  | 0 => None
  | S n' =>
      if sep_at path i then
        if negb matchedSlash then Some i else win32_dirname_scan path n' (i - 1) matchedSlash
      else win32_dirname_scan path n' (i - 1) false
  end.

(** [path.win32.dirname]; [rootEnd] is [None] for [-1]. *)
Definition win32_dirname (path : str) : str :=
  let len := length path in
  match path with
  | [] => [CHAR_DOT]
  | [code] => if isPathSeparator code then path else [CHAR_DOT]
  | code :: _ =>
    let '(rootEnd, offset, uncOnly) :=
      if isPathSeparator code then
        if sep_at path 1 then
          let j := skip_while not_sep path 2 in
          if (j <? len) && negb (j =? 2) then
            let last := j in
            let j := skip_while isPathSeparator path j in
            if (j <? len) && negb (j =? last) then
              let last := j in
              let j := skip_while not_sep path j in
              if j =? len then (Some 1, 1, true)
              else if negb (j =? last) then (Some (S j), S j, false)
              else (Some 1, 1, false)
            else (Some 1, 1, false)
          else (Some 1, 1, false)
        else (Some 1, 1, false)
      else if isWindowsDeviceRoot code && char_at_is path 1 CHAR_COLON then
        let r := if (2 <? len) && sep_at path 2 then 3 else 2 in (Some r, r, false)
      else (None, 0, false) in
    if uncOnly then path
    else
      match win32_dirname_scan path (len - offset) (len - 1) true with
      | Some e => slice path 0 e
      | None => match rootEnd with
                | None => [CHAR_DOT]
                | Some r => slice path 0 r
                end
      end
  end.

(** ** Module ids (src/index.ts, lines 25-37 and 189) *)

(** [filenameToMid] for the host separator [sep] ([path.sep]): the
    identity when it is ['/'], otherwise every [sep] becomes ['/'] (the
    regular expression built from [sep] matches [sep] literally). *)
Definition filenameToMid (sep : ascii) (filename : str) : str :=
  if ascii_dec sep CHAR_FORWARD_SLASH then filename
  else map (fun c => if ascii_dec c sep then CHAR_FORWARD_SLASH else c) filename.

(** [options.name + filenameToMid(filename.slice(baseDir.length, -5))] *)
Definition sourceModuleId (sep : ascii) (name baseDir filename : str) : str :=
  name ++ filenameToMid sep (slice_minus filename (length baseDir) 5).

(** ** The replacer of [writeDeclaration] (src/index.ts, lines 194-214) *)

(** [(<ts.ExternalModuleReference> node).expression.text]: the expression
    is the node's first child. *)
Definition expression_text (node : Node) : str :=
  match children node with
  | e :: _ => ntext e
  | [] => []
  end.

Definition is_import_or_export (pk : option SyntaxKind) : bool :=
  match pk with
  | Some k => kind_is k ExportDeclaration || kind_is k ImportDeclaration
  | None => false
  end.

(** [dirname] and [join] are [pathUtil.dirname] and two-argument
    [pathUtil.join]. *)
Definition declaration_replacer (dirname : str -> str) (join : str -> str -> str)
  (sourceModuleId : str) (node : Node) : option str :=
  if kind_is (kind node) ExternalModuleReference then
    let expressionText := expression_text node in
    if starts_with_char CHAR_DOT expressionText then
      Some (lit " require('" ++ join (dirname sourceModuleId) expressionText ++ lit "')")
    else None
  else if kind_is (kind node) DeclareKeyword then Some []
  else if kind_is (kind node) StringLiteral && is_import_or_export (parentKind node) then
    let t := ntext node in
    if starts_with_char CHAR_DOT t then
      Some (lit " '" ++ join (dirname sourceModuleId) t ++ lit "'")
    else None
  else None.

(** ** Indentation (src/index.ts, lines 102 and 216)

    [content.replace(new RegExp(eol + '(?!' + eol + '|$)', 'g'), '$&' + indent)].
    For an [eol] free of regular-expression metacharacters (['\n'], ['\r\n'])
    the pattern matches [eol] literally where it is not followed by another
    [eol] nor by the end of the input; matches are searched left to right and
    do not overlap.  The replacement is a template: [$$], [$&], [$`] and [$']
    are expanded (the pattern has no capture groups, so [$1] and [$<] stay
    literal). *)

Definition regex_metacharacters : str := lit "\^$.|?*+()[]{}".

Definition no_regex_meta (s : str) : bool :=
  forallb (fun c => negb (existsb (ascii_eqb c) regex_metacharacters)) s.

(** GetSubstitution for a match [matched] preceded by [before] and followed
    by [after]. *)
Fixpoint expand_replacement (tmpl matched before after : str) : str :=
  match tmpl with
  | c :: tmpl' =>
      if ascii_eqb c "$"%char then
        match tmpl' with
        | d :: tmpl'' =>
            if ascii_eqb d "$"%char then "$"%char :: expand_replacement tmpl'' matched before after
            else if ascii_eqb d "&"%char then matched ++ expand_replacement tmpl'' matched before after
            else if ascii_eqb d "`"%char then before ++ expand_replacement tmpl'' matched before after
            else if ascii_eqb d "'"%char then after ++ expand_replacement tmpl'' matched before after
            else c :: expand_replacement tmpl' matched before after
        | [] => [c]
        end
      else c :: expand_replacement tmpl' matched before after
  | [] => []
  end.

Section Indent.

Variable eol : str.
Variable replacement : str.

(** The global replace, scanning [rest] with [before] already scanned. *)
Fixpoint replace_go (fuel : nat) (before rest : str) : str :=
  match fuel with
  | 0 => rest
  | S fuel' =>
    match rest with
    | [] => []
    | c :: rest' =>
        let after := skipn (length eol) rest in
        if is_prefix eol rest &&
           negb (is_prefix eol after || (length rest =? length eol)) then
          expand_replacement replacement eol before after ++
          replace_go fuel' (before ++ eol) after
        else c :: replace_go fuel' (before ++ [c]) rest'
    end
  end.

End Indent.

(** The replacement of line 216.  [replace_go] matches [eol] literally, which
    is what the regular expression does when [no_regex_meta eol] holds (as
    for ['\n'] and ['\r\n']); an [eol] with metacharacters or escapes is
    read by [RegExp] as a pattern, so the properties of indentation that
    depend on matching assume [no_regex_meta eol]. *)
Definition indent_content (eol indent content : str) : str :=
  replace_go eol (lit "$&" ++ indent) (S (length content)) [] content.

(** A text made of [lines] separated by [eol], and the same lines with
    [indent] put before every non-empty line but the first. *)
Definition join_lines (eol : str) (lines : list str) : str :=
  match lines with
  | [] => []
  | l0 :: rest => l0 ++ flat_map (fun l => eol ++ l) rest
  end.

Definition indent_lines (eol indent : str) (lines : list str) : str :=
  match lines with
  | [] => []
  | l0 :: rest =>
      l0 ++ flat_map (fun l => eol ++ (match l with [] => [] | _ => indent end) ++ l) rest
  end.

(** ** Diagnostics and [getError] (src/index.ts, lines 39-53) *)

(** [ts.DiagnosticMessageChain] *)
Inductive DiagnosticMessageChain := mkChain {
  chainMessageText : str;
  chainCode : nat;
  next : option DiagnosticMessageChain
}.

(** [diagnostic.messageText : string | DiagnosticMessageChain] *)
Inductive MessageText :=
  | MessageString (s : str)
  | MessageChain (c : DiagnosticMessageChain).

Record Diagnostic := {
  file : SourceFile;
  start : nat;
  dcode : nat;
  messageText : MessageText
}.

(** [`${messageText}`]: a chain object renders as [[object Object]]. *)
Definition template_of_message (m : MessageText) : str :=
  match m with
  | MessageString s => s
  | MessageChain _ => lit "[object Object]"
  end.

(** TypeScript's [computeLineStarts] on ASCII text: a line break is
    ['\r\n'], ['\r'] or ['\n']. *)
Fixpoint line_starts_go (s : str) (pos lineStart : nat) : list nat :=
  match s with
  | [] => [lineStart]
  | c :: s' =>
      if ascii_eqb c CR then
        match s' with
        | d :: s'' => if ascii_eqb d LF then lineStart :: line_starts_go s'' (S (S pos)) (S (S pos))
                      else lineStart :: line_starts_go s' (S pos) (S pos)
        | [] => lineStart :: line_starts_go s' (S pos) (S pos)
        end
      else if ascii_eqb c LF then lineStart :: line_starts_go s' (S pos) (S pos)
      else line_starts_go s' (S pos) lineStart
  end.

Definition computeLineStarts (t : str) : list nat := line_starts_go t 0 0.

(** [computeLineAndCharacterOfPosition]: the binary search over the sorted
    line starts returns the index of the last line start not after
    [position]; both numbers are 0-based. *)
Definition getLineAndCharacterOfPosition (sf : SourceFile) (position : nat) : nat * nat :=
  let starts := computeLineStarts (text sf) in
  let line := length (filter (fun s => s <=? position) starts) - 1 in
  (line, position - nth line starts 0).

(** The positions of the ['\n'] characters of [s], counted from [k]. *)
Fixpoint lf_positions (s : str) (k : nat) : list nat :=
  match s with
  | [] => []
  | c :: s' => if ascii_eqb c LF then k :: lf_positions s' (S k) else lf_positions s' (S k)
  end.

Record Error := { error_name : str; message : str }.

Definition diagnostic_line (diagnostic : Diagnostic) : str :=
  let '(line, character) := getLineAndCharacterOfPosition (file diagnostic) (start diagnostic) in
  [LF] ++ fileName (file diagnostic) ++ lit "(" ++ show_nat (line + 1) ++ lit "," ++
  show_nat (character + 1) ++ lit "): " ++
  lit "error TS" ++ show_nat (dcode diagnostic) ++ lit ": " ++
  template_of_message (messageText diagnostic).

Definition getError (diagnostics : list Diagnostic) : Error :=
  let message := fold_left (fun message d => message ++ diagnostic_line d) diagnostics
                   (lit "Declaration generation failed") in
  {| error_name := lit "EmitterError"; message := message |}.

(** ** getFilenames (src/index.ts, lines 55-64)

    [resolve] is [pathUtil.resolve] (relative to the working directory). *)
Definition getFilenames (resolve : list str -> str) (baseDir : str) (files : list str) : list str :=
  map (fun filename =>
         let resolvedFilename := resolve [filename] in
         if is_prefix baseDir resolvedFilename then resolvedFilename
         else resolve [baseDir; filename]) files.

(** ** generate (src/index.ts, lines 99-223) *)

Record Options := {
  baseDir : str;
  files : list str;
  excludes : option (list str);
  externs : option (list str);
  eol : option str;
  includes : option (list str);
  indent : option str;
  main : option str;
  name : str;
  out : str
}.

(** What the compiler reports for one of [program.getSourceFiles()]:
    the parsed file, the result of [program.emit(sourceFile, writeFile)]
    (the files handed to [writeFile], in order, then [emitSkipped] and the
    emit diagnostics) and the other diagnostic lists. *)
Record ProgramFile := {
  sourceFile : SourceFile;
  emittedFiles : list (str * str);
  emitSkipped : bool;
  emitDiagnostics : list Diagnostic;
  semanticDiagnostics : list Diagnostic;
  syntacticDiagnostics : list Diagnostic;
  declarationDiagnostics : list Diagnostic
}.

(** The observable effects of a run, in order: [sendMessage] calls, writes
    to the output stream, the rejection of the returned promise, and
    [output.end()]. *)
Inductive Event :=
  | Message (s : str)
  | Write (s : str)
  | Reject (e : Error)
  | End.

Definition is_write (e : Event) : bool := match e with Write _ => true | _ => false end.
Definition is_reject (e : Event) : bool := match e with Reject _ => true | _ => false end.

(** JavaScript truthiness of an optional string option. *)
Definition truthy_str (o : option str) : option str :=
  match o with
  | Some [] | None => None
  | Some s => Some s
  end.

Section Generate.

(** The host: [path.sep], [path.dirname], [path.join] (two arguments),
    [path.normalize], [path.resolve] (relative to the working directory),
    [os.EOL], and the parser [ts.createSourceFile]. *)
Variable sep : ascii.
Variable dirname : str -> str.
Variable join : str -> str -> str.
Variable normalize : str -> str.
Variable resolve : list str -> str.
Variable osEOL : str.
Variable createSourceFile : str -> str -> SourceFile.

Variable options : Options.

Definition resolvedBaseDir : str := resolve [baseDir options].

Definition eolString : str :=
  match truthy_str (eol options) with Some e => e | None => osEOL end.

Definition indentString : str :=
  match indent options with Some i => i | None => [TAB] end.

Definition excludesMap : list str :=
  match excludes options with
  | Some l => map (fun filename => resolve [resolvedBaseDir; filename]) l
  | None => []
  end.

Definition is_excluded (filename : str) : bool := existsb (str_eqb filename) excludesMap.

Definition writeDeclaration (declarationFile : SourceFile) : list Event :=
  let filename := fileName declarationFile in
  let mid := sourceModuleId sep (name options) resolvedBaseDir filename in
  if externalModuleIndicator declarationFile then
    let content := processTree declarationFile (declaration_replacer dirname join mid) in
    [Write (lit "declare module '" ++ mid ++ lit "' {" ++ eolString ++ indentString);
     Write (indent_content eolString indentString content);
     Write (eolString ++ lit "}" ++ eolString)]
  else [Write (text declarationFile)].

(** The [writeFile] callback handed to [program.emit]. *)
Definition writeFile (emitted : str * str) : list Event :=
  let '(filename, data) := emitted in
  if str_eqb (slice_last filename 5) (lit ".d.ts") then
    writeDeclaration (createSourceFile filename data)
  else [].

Definition externs_events : list Event :=
  match externs options with
  | Some paths =>
      flat_map (fun path =>
        [Message (lit "Writing external dependency " ++ path);
         Write (lit "/// <reference path=" ++ dquote ++ path ++ dquote ++ lit " />" ++ eolString)])
        paths
  | None => []
  end.

(** [program.getSourceFiles().some(...)]: a file returning [true] stops
    the iteration. *)
Fixpoint process_files (sourceFiles : list ProgramFile) : list Event :=
  match sourceFiles with
  | [] => []
  | pf :: rest =>
      let sf := sourceFile pf in
      if negb (is_prefix resolvedBaseDir (normalize (fileName sf))) then process_files rest
      else if is_excluded (fileName sf) then process_files rest
      else
        Message (lit "Processing " ++ fileName sf) ::
        if str_eqb (slice_last (fileName sf) 5) (lit ".d.ts") then
          writeDeclaration sf ++ process_files rest
        else
          flat_map writeFile (emittedFiles pf) ++
          if emitSkipped pf || negb (length (emitDiagnostics pf) =? 0) then
            [Reject (getError (emitDiagnostics pf ++ semanticDiagnostics pf ++
                               syntacticDiagnostics pf ++ declarationDiagnostics pf))]
          else process_files rest
  end.

Definition main_events : list Event :=
  match truthy_str (main options) with
  | Some m =>
      [Write (lit "declare module '" ++ name options ++ lit "' {" ++ eolString ++ indentString);
       Write (lit "import main = require('" ++ m ++ lit "');" ++ eolString ++ indentString);
       Write (lit "export = main;" ++ eolString);
       Write (lit "}" ++ eolString);
       Message (lit "Aliased main module " ++ name options ++ lit " to " ++ m)]
  | None => []
  end.

(** The executor of the promise returned by [generate]: it runs
    synchronously to its end when [generate] is called.  Its first two
    statements only register the stream's handlers ([output.on('close', ...)]
    and [output.on('error', reject)]); the stream calls them later, after
    the executor has returned (see [stream_events]). *)
Definition generate (sourceFiles : list ProgramFile) : list Event :=
  externs_events ++ process_files sourceFiles ++ main_events ++ [End].

End Generate.

(** How the output stream finishes: it closes ([output.on('close', ...)]
    resolves the promise) or it reports an error, which the handler
    [output.on('error', reject)] passes to [reject]. *)
Inductive StreamOutcome :=
  | StreamClosed
  | StreamError (e : Error).

Definition stream_events (o : StreamOutcome) : list Event :=
  match o with
  | StreamClosed => []
  | StreamError e => [Reject e]
  end.

(** A whole run: the executor's events, then those of the stream's
    handlers. *)
Definition run_with_stream (sep : ascii) (dirname : str -> str) (join : str -> str -> str)
  (normalize : str -> str) (resolve : list str -> str) (osEOL : str)
  (createSourceFile : str -> str -> SourceFile) (options : Options)
  (sourceFiles : list ProgramFile) (o : StreamOutcome) : list Event :=
  generate sep dirname join normalize resolve osEOL createSourceFile options sourceFiles ++
  stream_events o.

(** The text of the output file: the writes, in order. *)
Definition output_text (evs : list Event) : str :=
  flat_map (fun e => match e with Write s => s | _ => [] end) evs.

(** The events issued after the first rejection ([None] when the run is
    never rejected). *)
Fixpoint after_reject (evs : list Event) : option (list Event) :=
  match evs with
  | [] => None
  | Reject _ :: rest => Some rest
  | _ :: rest => after_reject rest
  end.

(** The files of [program.getSourceFiles()] that the loop of [generate]
    does not skip: under the base directory after [path.normalize], and not
    excluded. *)
Definition considered (normalize : str -> str) (resolve : list str -> str) (options : Options)
  (pf : ProgramFile) : bool :=
  is_prefix (resolvedBaseDir resolve options) (normalize (fileName (sourceFile pf))) &&
  negb (is_excluded resolve options (fileName (sourceFile pf))).

Definition is_message (e : Event) : bool := match e with Message _ => true | _ => false end.

(** ** A POSIX host and sample inputs *)

Definition posix_join2 (a b : str) : str := posix_join [a; b].

(** A stand-in for [ts.createSourceFile] that reads every file as a
    script (no external-module indicator), used where no emitted
    declaration file is parsed. *)
Definition script_parser (filename data : str) : SourceFile :=
  {| fileName := filename; text := data;
     root := mkNode SourceFileKind 0 (length data) None [] [];
     externalModuleIndicator := false |}.

(** ["export declare var x: number;\n"], as the TypeScript parser builds it:
    the [declare] modifier spans [6, 14), its leading space included. *)
Definition ex_var_text : str := lit "export declare var x: number;" ++ [LF].

Definition ex_var_root : Node :=
  mkNode SourceFileKind 0 30 None []
    [mkNode VariableStatement 0 29 (Some SourceFileKind) []
       [mkNode ExportKeyword 0 6 (Some VariableStatement) [] [];
        mkNode DeclareKeyword 6 14 (Some VariableStatement) [] [];
        mkNode VariableDeclarationList 14 28 (Some VariableStatement) []
          [mkNode VariableDeclaration 18 28 (Some VariableDeclarationList) []
             [mkNode Identifier 18 20 (Some VariableDeclaration) (lit "x") [];
              mkNode NumberKeyword 21 28 (Some VariableDeclaration) [] []]]];
     mkNode EndOfFileToken 29 30 (Some SourceFileKind) [] []].

Definition ex_var_file (filename : str) : SourceFile :=
  {| fileName := filename; text := ex_var_text; root := ex_var_root;
     externalModuleIndicator := true |}.

(** ["import a = require('./x');\n"]: the external module reference spans
    [10, 25), its leading space included; its expression is the literal
    ['./x'] at [19, 24). *)
Definition ex_import_text : str := lit "import a = require('./x');" ++ [LF].

Definition ex_import_root : Node :=
  mkNode SourceFileKind 0 27 None []
    [mkNode ImportEqualsDeclaration 0 26 (Some SourceFileKind) []
       [mkNode Identifier 6 8 (Some ImportEqualsDeclaration) (lit "a") [];
        mkNode ExternalModuleReference 10 25 (Some ImportEqualsDeclaration) []
          [mkNode StringLiteral 19 24 (Some ExternalModuleReference) (lit "./x") []]];
     mkNode EndOfFileToken 26 27 (Some SourceFileKind) [] []].

Definition ex_import_file (filename : str) : SourceFile :=
  {| fileName := filename; text := ex_import_text; root := ex_import_root;
     externalModuleIndicator := true |}.

(** A run on a POSIX host whose working directory is [/proj]: base
    directory [src], namespace [pkg], ['\n'] line ends, default indent. *)
Definition ex_cwd : str := lit "/proj".

Definition ex_options (mainPath : option str) : Options :=
  {| baseDir := lit "src"; files := [lit "src/a.ts"; lit "src/b.ts"]; excludes := None;
     externs := None; eol := Some [LF]; includes := None; indent := None;
     main := mainPath; name := lit "pkg"; out := lit "out/pkg.d.ts" |}.

Definition posix_generate (opts : Options) (sourceFiles : list ProgramFile) : list Event :=
  generate CHAR_FORWARD_SLASH posix_dirname posix_join2 posix_normalize
    (posix_resolve ex_cwd) [LF] script_parser opts sourceFiles.

Definition no_diagnostics (sf : SourceFile) (emitted : list (str * str)) : ProgramFile :=
  {| sourceFile := sf; emittedFiles := emitted; emitSkipped := false;
     emitDiagnostics := []; semanticDiagnostics := []; syntacticDiagnostics := [];
     declarationDiagnostics := [] |}.

(** A hand-written declaration file [/proj/src/types.d.ts] that is an
    external module. *)
Definition ex_types_d_ts : ProgramFile :=
  no_diagnostics (ex_var_file (lit "/proj/src/types.d.ts")) [].

Definition ex_a_ts_file : SourceFile :=
  script_parser (lit "/proj/src/a.ts") (lit "class Foo {}" ++ [LF] ++ lit "export var x: Foo;" ++ [LF]).

(** [/proj/src/a.ts], whose declaration emit reports TS4025 at [x]. *)
Definition ex_a_ts_error : ProgramFile :=
  {| sourceFile := ex_a_ts_file;
     emittedFiles := [];
     emitSkipped := false;
     emitDiagnostics :=
       [{| file := ex_a_ts_file; start := 24; dcode := 4025;
           messageText := MessageString (lit "Exported variable 'x' has or is using private name 'Foo'.") |}];
     semanticDiagnostics := []; syntacticDiagnostics := []; declarationDiagnostics := [] |}.

(** [/proj/src/a.ts] with the diagnostic of [ex_a_ts_error] reported as a
    semantic diagnostic and an empty emit. *)
Definition ex_a_ts_semantic : ProgramFile :=
  {| sourceFile := ex_a_ts_file; emittedFiles := []; emitSkipped := false;
     emitDiagnostics := []; semanticDiagnostics := emitDiagnostics ex_a_ts_error;
     syntacticDiagnostics := []; declarationDiagnostics := [] |}.

Definition ex_b_ts : ProgramFile :=
  no_diagnostics (script_parser (lit "/proj/src/b.ts") (lit "var y = 1;" ++ [LF])) [].

(** The alias block [declare module '<name>' { import main = require('<target>'); export = main; }]
    laid out with [eol] and [ind] as [generate] writes it. *)
Definition alias_block (eol ind name target : str) : str :=
  lit "declare module '" ++ name ++ lit "' {" ++ eol ++ ind ++
  lit "import main = require('" ++ target ++ lit "');" ++ eol ++ ind ++
  lit "export = main;" ++ eol ++ lit "}" ++ eol.

(** * Properties *)

(** ** Lemmas on the rewriter *)

Section RewriterLemmas.

Variable src : str.
Variable rep : Node -> option str.

Lemma visit_unfold (n : Node) (w : Walk) :
  visit src rep n w =
  let w' := readThrough src n w in
  match rep n with
  | Some r => skip n {| code := code w' ++ r; cursorPosition := cursorPosition w' |}
  | None => fold_left (fun w c => visit src rep c w) (children n) w'
  end.
Proof.
  destruct n as [k p e pk t cs]; simpl.
  destruct (rep _); [reflexivity|].
  generalize (readThrough src (mkNode k p e pk t cs) w) as w0.
  induction cs as [|c cs IH]; intros w0; [reflexivity|].
  simpl. apply IH.
Qed.

Lemma trace_visit_unfold (n : Node) (cur : nat) :
  trace_visit rep n cur =
  match rep n with
  | Some r => ([Kept cur (pos n); Replaced n r], end_ n)
  | None => let '(ps, c) := trace_list (trace_visit rep) (children n) (pos n) in
            (Kept cur (pos n) :: ps, c)
  end.
Proof.
  destruct n as [k p e pk t cs]; simpl.
  destruct (rep _); [reflexivity|].
  assert (E : forall cur0,
    (fix go (cs : list Node) (cur : nat) : list Piece * nat :=
       match cs with
       | [] => ([], cur)
       | c :: cs' =>
           let '(p1, c1) := trace_visit rep c cur in
           let '(p2, c2) := go cs' c1 in (p1 ++ p2, c2)
       end) cs cur0 = trace_list (trace_visit rep) cs cur0).
  { induction cs as [|c cs IH]; intros cur0; [reflexivity|].
    simpl. destruct (trace_visit rep c cur0). rewrite IH. reflexivity. }
  rewrite E. reflexivity.
Qed.

Lemma wf_node_unfold (n : Node) :
  wf_node n = (pos n <=? end_ n) && chain wf_node (pos n) (children n) (end_ n).
Proof.
  destruct n as [k p e pk t cs]; simpl. f_equal.
  generalize p. induction cs as [|c cs IH]; intros lo; [reflexivity|].
  simpl. rewrite IH. reflexivity.
Qed.

Lemma tiles_app (a m b : nat) (ps1 ps2 : list Piece) :
  tiles a m ps1 -> tiles m b ps2 -> tiles a b (ps1 ++ ps2).
Proof.
  revert a. induction ps1 as [|p ps IH]; intros a H1 H2; simpl in *.
  - subst; assumption.
  - destruct H1 as (H1 & H3 & H4). repeat split; auto.
Qed.

Lemma tiles_le (a b : nat) (ps : list Piece) : tiles a b ps -> a <= b.
Proof.
  revert a. induction ps as [|p ps IH]; intros a H; simpl in H.
  - lia.
  - destruct H as (H1 & H2 & H3). apply IH in H3. lia.
Qed.


Lemma render_all_app (ps1 ps2 : list Piece) :
  render_all src (ps1 ++ ps2) = render_all src ps1 ++ render_all src ps2.
Proof. unfold render_all. apply flat_map_app. Qed.

(** The invariant of the walk: [visit] appends exactly the rendering of the
    pieces [trace_visit] lists, the pieces tile the span from the cursor to
    the new cursor, and the cursor never passes the node's end. *)
Lemma visit_trace (n : Node) :
  forall w, wf_node n = true -> cursorPosition w <= pos n ->
  let t := trace_visit rep n (cursorPosition w) in
  code (visit src rep n w) = code w ++ render_all src (fst t) /\
  cursorPosition (visit src rep n w) = snd t /\
  tiles (cursorPosition w) (snd t) (fst t) /\ snd t <= end_ n.
Proof.
  induction n as [k p e pk t cs IHcs] using Node_rect'.
  intros w Hwf Hle. rewrite wf_node_unfold in Hwf. simpl in Hwf, Hle.
  apply andb_true_iff in Hwf as [Hpe Hch]. apply Nat.leb_le in Hpe.
  rewrite visit_unfold, trace_visit_unfold. simpl.
  destruct (rep _) as [r|].
  - unfold render_all; simpl. rewrite app_nil_r, <- app_assoc.
    repeat split; try lia.
  - (* the children, from the node's start *)
    assert (G : forall cs w0 lo, Forall (fun n => forall w, wf_node n = true ->
                   cursorPosition w <= pos n ->
                   let t := trace_visit rep n (cursorPosition w) in
                   code (visit src rep n w) = code w ++ render_all src (fst t) /\
                   cursorPosition (visit src rep n w) = snd t /\
                   tiles (cursorPosition w) (snd t) (fst t) /\ snd t <= end_ n) cs ->
              chain wf_node lo cs e = true -> cursorPosition w0 <= lo ->
              let t := trace_list (trace_visit rep) cs (cursorPosition w0) in
              code (fold_left (fun w c => visit src rep c w) cs w0) =
                code w0 ++ render_all src (fst t) /\
              cursorPosition (fold_left (fun w c => visit src rep c w) cs w0) = snd t /\
              tiles (cursorPosition w0) (snd t) (fst t) /\ snd t <= e).
    { clear. intros cs0; induction cs0 as [|c cs' IH]; intros w0 lo HF Hc Hlo; simpl in *.
      - apply Nat.leb_le in Hc. rewrite app_nil_r. repeat split; lia.
      - inversion HF as [|? ? Hc1 HF']; subst.
        apply andb_true_iff in Hc as [Hc Hrest]. apply andb_true_iff in Hc as [Hlc Hwc].
        apply Nat.leb_le in Hlc.
        destruct (Hc1 w0 Hwc ltac:(lia)) as (E1 & E2 & E3 & E4).
        destruct (trace_visit rep c (cursorPosition w0)) as [p1 c1] eqn:Ht1.
        simpl in E1, E2, E3, E4.
        specialize (IH (visit src rep c w0) (end_ c) HF' Hrest ltac:(lia)).
        rewrite E2 in IH.
        destruct (trace_list (trace_visit rep) cs' c1) as [p2 c2] eqn:Ht2.
        simpl in IH |- *. destruct IH as (F1 & F2 & F3 & F4).
        rewrite F1, E1, render_all_app, app_assoc. repeat split; auto.
        eapply tiles_app; eauto. }
    specialize (G cs (readThrough src (mkNode k p e pk t cs) w) p IHcs Hch).
    simpl in G. specialize (G ltac:(lia)).
    destruct (trace_list (trace_visit rep) cs p) as [ps c] eqn:Ht.
    simpl in G |- *. destruct G as (G1 & G2 & G3 & G4).
    rewrite G1, <- app_assoc. repeat split; auto; lia.
Qed.

End RewriterLemmas.

Lemma firstn_app_skipn {A} (i j : nat) (l : list A) :
  firstn i l ++ firstn j (skipn i l) = firstn (i + j) l.
Proof.
  revert l. induction i as [|i IH]; intros [|x l]; simpl; auto.
  - destruct j; reflexivity.
  - rewrite IH. reflexivity.
Qed.

Lemma slice_app (s : str) (a m b : nat) :
  a <= m -> m <= b -> slice s a m ++ slice s m b = slice s a b.
Proof.
  intros H1 H2. unfold slice.
  replace (skipn m s) with (skipn (m - a) (skipn a s))
    by (rewrite skipn_skipn; f_equal; lia).
  rewrite firstn_app_skipn. f_equal. lia.
Qed.

Lemma slice_whole (s : str) : slice s 0 (length s) = s.
Proof. unfold slice. simpl. rewrite Nat.sub_0_r. apply firstn_all. Qed.

Lemma slice_from_slice (s : str) (a : nat) :
  a <= length s -> slice_from s a = slice s a (length s).
Proof.
  intros H. unfold slice, slice_from. rewrite firstn_all2; auto.
  rewrite length_skipn. lia.
Qed.

Definition is_kept (p : Piece) : bool :=
  match p with Kept _ _ => true | Replaced _ _ => false end.

Lemma render_all_kept (s : str) (a b : nat) (ps : list Piece) :
  tiles a b ps -> forallb is_kept ps = true ->
  render_all s ps = slice s a b.
Proof.
  revert a. induction ps as [|p ps IH]; intros a Ht Hk; simpl in *.
  - subst. unfold slice. rewrite Nat.sub_diag. reflexivity.
  - apply andb_true_iff in Hk as [Hp Hk].
    destruct p as [x y|]; [|discriminate]. simpl in Ht.
    destruct Ht as (H1 & H2 & H3). subst x.
    rewrite (IH _ H3 Hk). apply slice_app; auto. eapply tiles_le; eauto.
Qed.

Lemma trace_list_app_inv (f : Node -> nat -> list Piece * nat) (cs : list Node) (cur : nat) (q : Piece) :
  In q (fst (trace_list f cs cur)) ->
  exists c cur', In c cs /\ In q (fst (f c cur')).
Proof.
  revert cur. induction cs as [|c cs IH]; intros cur H; simpl in H; [contradiction|].
  destruct (f c cur) as [p1 c1] eqn:E1.
  destruct (trace_list f cs c1) as [p2 c2] eqn:E2. simpl in H.
  apply in_app_or in H as [H|H].
  - exists c, cur. split; [left; reflexivity|]. rewrite E1. exact H.
  - specialize (IH c1). rewrite E2 in IH. destruct (IH H) as (c' & cur' & H1 & H2).
    exists c', cur'. split; [right; exact H1 | exact H2].
Qed.

Lemma trace_visit_replaced (rep : Node -> option str) (n : Node) :
  forall cur m r, In (Replaced m r) (fst (trace_visit rep n cur)) -> rep m = Some r.
Proof.
  induction n as [k p e pk t cs IHcs] using Node_rect'.
  intros cur m r H. rewrite trace_visit_unfold in H.
  destruct (rep _) as [r0|] eqn:Er.
  - simpl in H. destruct H as [H|[H|[]]]; [discriminate|]. injection H as <- <-. exact Er.
  - simpl in H.
    destruct (trace_list (trace_visit rep) cs p) as [ps c] eqn:Et. simpl in H.
    destruct H as [H|H]; [discriminate|].
    assert (H' : In (Replaced m r) (fst (trace_list (trace_visit rep) cs p))) by (rewrite Et; exact H).
    destruct (trace_list_app_inv _ _ _ _ H') as (c' & cur' & Hc & Hq).
    rewrite Forall_forall in IHcs. exact (IHcs c' Hc cur' m r Hq).
Qed.

Lemma trace_visit_none_kept (rep : Node -> option str) (n : Node) :
  (forall m, rep m = None) -> forall cur, forallb is_kept (fst (trace_visit rep n cur)) = true.
Proof.
  intros Hn cur. apply forallb_forall. intros [a b|m r] Hin; [reflexivity|].
  apply trace_visit_replaced in Hin. rewrite Hn in Hin. discriminate.
Qed.

(** [processTree] is the rendering of its trace, and the trace tiles the
    whole source text. *)
Lemma processTree_trace (sf : SourceFile) (rep : Node -> option str) :
  wf_source sf = true ->
  processTree sf rep = render_all (text sf) (trace sf rep) /\
  tiles 0 (length (text sf)) (trace sf rep).
Proof.
  unfold wf_source, processTree, trace. intros H.
  apply andb_true_iff in H as [Hwf Hlen]. apply Nat.leb_le in Hlen.
  destruct (visit_trace (text sf) rep (root sf) {| code := []; cursorPosition := 0 |} Hwf
              ltac:(simpl; lia)) as (E1 & E2 & E3 & E4).
  simpl in E1, E2, E3, E4.
  destruct (trace_visit rep (root sf) 0) as [ps c] eqn:Et. simpl in *.
  rewrite E1, E2, render_all_app. split.
  - unfold render_all at 2. simpl. rewrite app_nil_r, slice_from_slice by lia. reflexivity.
  - eapply tiles_app; [exact E3|]. simpl. repeat split; lia.
Qed.

(** ** Module ids *)

Lemma slice_minus_middle (base rel sfx : str) :
  length sfx = 5 -> slice_minus (base ++ rel ++ sfx) (length base) 5 = rel.
Proof.
  intros H. unfold slice_minus, slice.
  rewrite !length_app, H.
  replace (length base + (length rel + 5) - 5 - length base) with (length rel) by lia.
  rewrite skipn_app, skipn_all, Nat.sub_diag. simpl.
  rewrite firstn_app, Nat.sub_diag. simpl. rewrite app_nil_r. apply firstn_all.
Qed.

(** ** Main-alias and orchestration lemmas *)

Lemma output_text_app (l1 l2 : list Event) :
  output_text (l1 ++ l2) = output_text l1 ++ output_text l2.
Proof. unfold output_text. apply flat_map_app. Qed.

Lemma after_reject_app (l1 l2 : list Event) :
  after_reject (l1 ++ l2) =
  match after_reject l1 with Some r => Some (r ++ l2) | None => after_reject l2 end.
Proof.
  induction l1 as [|e l1 IH]; [reflexivity|].
  destruct e; simpl; auto.
Qed.

(** * Claims *)

(** C2: for every well-formed source file and every replacer, the output
    of the rewriter is the concatenation of the rendered pieces of its
    trace (source spans copied through and replacement strings), the spans
    of these pieces cover the source text from 0 to its length once, with
    no gap and no overlap, every replaced piece is a node the replacer
    answered for; and with a replacer that is always absent the output is
    the source text itself, byte for byte. *)
Theorem processTree_exact_cover (sf : SourceFile) (replacer : Node -> option str) :
  wf_source sf = true ->
  processTree sf replacer = render_all (text sf) (trace sf replacer) /\
  tiles 0 (length (text sf)) (trace sf replacer) /\
  (forall n r, In (Replaced n r) (trace sf replacer) -> replacer n = Some r) /\
  ((forall n, replacer n = None) -> processTree sf replacer = text sf).
Proof.
  intros Hwf. destruct (processTree_trace sf replacer Hwf) as [E T].
  assert (HR : forall n r, In (Replaced n r) (trace sf replacer) -> replacer n = Some r).
  { unfold trace. intros n r H.
    destruct (trace_visit replacer (root sf) 0) as [ps c] eqn:Et.
    apply in_app_or in H as [H|[H|[]]]; [|discriminate].
    apply (trace_visit_replaced replacer (root sf) 0). rewrite Et. exact H. }
  split; [exact E|]. split; [exact T|]. split; [exact HR|].
  intros Hnone. rewrite E.
  rewrite (render_all_kept (text sf) 0 (length (text sf)) _ T).
  - apply slice_whole.
  - apply forallb_forall. intros [a b|n r] Hin; [reflexivity|].
    apply HR in Hin. rewrite Hnone in Hin. discriminate.
Qed.

Lemma processTree_exact_cover_witness :
  wf_source (ex_import_file []) = true /\
  processTree (ex_import_file []) (fun _ => None) = text (ex_import_file []).
Proof.
  split; [reflexivity|].
  apply (processTree_exact_cover (ex_import_file []) (fun _ => None) eq_refl).
  intros n; reflexivity.
Defined.



(** C5: for every host separator [sep], a declaration file
    [<base><s1>seg1<s2>seg2...<sk>segk.d.ts] whose separators [si] are the
    host's separator or ['/'] and whose segments contain neither gets the
    module id [name/seg1/seg2/.../segk]: the namespace name followed by the
    relative path without the suffix, delimited by ['/'] only, whatever the
    host convention. *)
Theorem sourceModuleId_slash_delimited (sep : ascii) (name base : str)
  (rel : list (ascii * str)) :
  Forall (fun sc => (fst sc = sep \/ fst sc = CHAR_FORWARD_SLASH) /\
                    ~ In CHAR_FORWARD_SLASH (snd sc) /\ ~ In sep (snd sc)) rel ->
  sourceModuleId sep name base
    (base ++ flat_map (fun sc => fst sc :: snd sc) rel ++ lit ".d.ts")
  = name ++ flat_map (fun sc => CHAR_FORWARD_SLASH :: snd sc) rel.
Proof.
  intros Hrel. unfold sourceModuleId.
  rewrite slice_minus_middle by reflexivity. f_equal.
  unfold filenameToMid. destruct (ascii_dec sep CHAR_FORWARD_SLASH) as [->|Hne].
  - induction Hrel as [|[c seg] rel [[Hc|Hc] _] _ IH]; simpl in *; auto;
      rewrite Hc, IH; reflexivity.
  - induction Hrel as [|[c seg] rel [Hc [_ Hseg]] _ IH]; [reflexivity|]. simpl in *.
    rewrite map_app, IH. f_equal.
    + destruct (ascii_dec c sep) as [_|Hcs]; [reflexivity|].
      destruct Hc as [Hc|Hc]; [contradiction|]. exact Hc.
    + f_equal. clear - Hseg. induction seg as [|x seg IHs]; [reflexivity|].
      simpl. destruct (ascii_dec x sep) as [->|_].
      * exfalso. apply Hseg. left. reflexivity.
      * rewrite IHs; [reflexivity|]. intros H. apply Hseg. right. exact H.
Qed.

Lemma sourceModuleId_slash_delimited_witness :
  sourceModuleId CHAR_FORWARD_SLASH (lit "mylib") (lit "/home/u/lib")
    (lit "/home/u/lib/foo/bar.d.ts") = lit "mylib/foo/bar" /\
  sourceModuleId "\"%char (lit "mylib") (lit "C:\u\lib")
    (lit "C:\u\lib\foo\bar.d.ts") = lit "mylib/foo/bar".
Proof.
  split.
  - exact (sourceModuleId_slash_delimited CHAR_FORWARD_SLASH (lit "mylib") (lit "/home/u/lib")
             [(CHAR_FORWARD_SLASH, lit "foo"); (CHAR_FORWARD_SLASH, lit "bar")]
             ltac:(repeat constructor; simpl; intuition discriminate)).
  - exact (sourceModuleId_slash_delimited "\"%char (lit "mylib") (lit "C:\u\lib")
             [("\"%char, lit "foo"); ("\"%char, lit "bar")]
             ltac:(repeat constructor; simpl; intuition discriminate)).
Defined.

(** In [writeDeclaration]'s replacer, an external module reference
    whose path starts with ['.'] is replaced by [ require('<p>')] where [p]
    joins the directory of the file's module id with the path; a reference
    whose path does not start with ['.'] gets no replacement, nor does its
    literal, so it passes through unchanged.  With Node's POSIX path
    functions, ['./x'] inside ['mylib/a/b'] becomes ['mylib/a/x']. *)
Theorem relative_reference_joined (dirname : str -> str) (join : str -> str -> str)
  (mid : str) (node : Node) :
  kind node = ExternalModuleReference ->
  declaration_replacer dirname join mid node =
    (if starts_with_char CHAR_DOT (expression_text node)
     then Some (lit " require('" ++ join (dirname mid) (expression_text node) ++ lit "')")
     else None) /\
  (forall m, kind m = StringLiteral -> parentKind m = Some ExternalModuleReference ->
     declaration_replacer dirname join mid m = None) /\
  posix_join2 (posix_dirname (lit "mylib/a/b")) (lit "./x") = lit "mylib/a/x" /\
  processTree (ex_import_file []) (declaration_replacer posix_dirname posix_join2 (lit "mylib/a/b"))
    = lit "import a = require('mylib/a/x');" ++ [LF].
Proof.
  intros Hk. split; [|split; [|split; vm_compute; reflexivity]].
  - unfold declaration_replacer. rewrite Hk. reflexivity.
  - intros m Hm Hp. unfold declaration_replacer. rewrite Hm, Hp. reflexivity.
Qed.

(** C6: the relative path is joined by the host's [path.join], which on a
    Windows host ([path.win32], separator ['\']) writes ['\'] between the
    segments, while module ids are ['/']-delimited there as well
    ([filenameToMid]).  The file with module id ['mylib/a/b'] (under base
    ['C:\u\lib']) that refers to ['./x'] is rewritten to
    [require('mylib\a\x')], not to [require('mylib/a/x')], the id under which
    the module of ['x'] is declared; on a POSIX host it is
    [require('mylib/a/x')]. *)
Theorem relative_reference_backslashes_on_windows :
  (sourceModuleId CHAR_BACKWARD_SLASH (lit "mylib") (lit "C:\u\lib") (lit "C:\u\lib\a\b.d.ts")
    = lit "mylib/a/b") /\
  (sourceModuleId CHAR_BACKWARD_SLASH (lit "mylib") (lit "C:\u\lib") (lit "C:\u\lib\a\x.d.ts")
    = lit "mylib/a/x") /\
  (processTree (ex_import_file (lit "C:\u\lib\a\b.d.ts"))
    (declaration_replacer win32_dirname win32_join2 (lit "mylib/a/b"))
    = lit "import a = require('mylib\a\x');" ++ [LF]) /\
  (processTree (ex_import_file (lit "C:\u\lib\a\b.d.ts"))
    (declaration_replacer win32_dirname win32_join2 (lit "mylib/a/b"))
    <> lit "import a = require('mylib/a/x');" ++ [LF]) /\
  (processTree (ex_import_file (lit "/u/lib/a/b.d.ts"))
    (declaration_replacer posix_dirname posix_join2 (lit "mylib/a/b"))
    = lit "import a = require('mylib/a/x');" ++ [LF]).
Proof.
  split; [vm_compute; reflexivity|]. split; [vm_compute; reflexivity|].
  split; [vm_compute; reflexivity|]. split; [vm_compute; discriminate|].
  vm_compute; reflexivity.
Qed.

Section GenerateProperties.

Variable sep : ascii.
Variable dirname : str -> str.
Variable join : str -> str -> str.
Variable normalize : str -> str.
Variable resolve : list str -> str.
Variable osEOL : str.
Variable createSourceFile : str -> str -> SourceFile.

Definition run (opts : Options) (pfs : list ProgramFile) : list Event :=
  generate sep dirname join normalize resolve osEOL createSourceFile opts pfs.

(** C1 (amended): a source file under the base directory, not excluded,
    whose name ends in [.d.ts] is not emitted; it goes through
    [writeDeclaration] like an emitted declaration: with no external-module
    indicator its raw text is written unchanged, with one it is wrapped in a
    [declare module '<module id>'] block around its rewritten, indented
    text. *)
Theorem declaration_input_through_writeDeclaration (opts : Options)
  (pf : ProgramFile) (rest : list ProgramFile) :
  let sf := sourceFile pf in
  is_prefix (resolvedBaseDir resolve opts) (normalize (fileName sf)) = true ->
  is_excluded resolve opts (fileName sf) = false ->
  str_eqb (slice_last (fileName sf) 5) (lit ".d.ts") = true ->
  process_files sep dirname join normalize resolve osEOL createSourceFile opts (pf :: rest) =
  Message (lit "Processing " ++ fileName sf) ::
  (if externalModuleIndicator sf then
     let mid := sourceModuleId sep (name opts) (resolvedBaseDir resolve opts) (fileName sf) in
     [Write (lit "declare module '" ++ mid ++ lit "' {" ++ eolString osEOL opts ++ indentString opts);
      Write (indent_content (eolString osEOL opts) (indentString opts)
               (processTree sf (declaration_replacer dirname join mid)));
      Write (eolString osEOL opts ++ lit "}" ++ eolString osEOL opts)]
   else [Write (text sf)]) ++
  process_files sep dirname join normalize resolve osEOL createSourceFile opts rest.
Proof.
  intros sf H1 H2 H3. cbn [process_files]. fold sf. rewrite H1, H2, H3. cbn [negb].
  unfold writeDeclaration. destruct (externalModuleIndicator sf); reflexivity.
Qed.

(** C4 (amended): when a main module path [m] is configured, the output is
    the externs and file blocks followed by the alias block that imports
    [m] as it is given: [declare module '<name>' { import main =
    require('<m>'); export = main; }], laid out with the configured line
    end and indent. *)
Theorem main_alias_appended (opts : Options) (pfs : list ProgramFile) (m : str) :
  truthy_str (main opts) = Some m ->
  output_text (run opts pfs) =
  output_text (externs_events osEOL opts ++
               process_files sep dirname join normalize resolve osEOL createSourceFile opts pfs) ++
  alias_block (eolString osEOL opts) (indentString opts) (name opts) m.
Proof.
  intros Hm. unfold run, generate, main_events. rewrite Hm.
  rewrite app_assoc, !output_text_app. f_equal.
  unfold output_text, alias_block. cbn [flat_map]. rewrite !app_nil_r, <- !app_assoc.
  reflexivity.
Qed.

End GenerateProperties.

Lemma declaration_input_through_writeDeclaration_witness :
  process_files CHAR_FORWARD_SLASH posix_dirname posix_join2 posix_normalize
    (posix_resolve ex_cwd) [LF] script_parser (ex_options None) [ex_types_d_ts] =
  [Message (lit "Processing /proj/src/types.d.ts");
   Write (lit "declare module 'pkg/types' {" ++ [LF; TAB]);
   Write (indent_content [LF] [TAB]
            (processTree (ex_var_file (lit "/proj/src/types.d.ts"))
               (declaration_replacer posix_dirname posix_join2 (lit "pkg/types"))));
   Write ([LF] ++ lit "}" ++ [LF])].
Proof.
  rewrite (declaration_input_through_writeDeclaration CHAR_FORWARD_SLASH posix_dirname
             posix_join2 posix_normalize (posix_resolve ex_cwd) [LF] script_parser
             (ex_options None) ex_types_d_ts [] ltac:(vm_compute; reflexivity)
             ltac:(vm_compute; reflexivity) ltac:(vm_compute; reflexivity)).
  vm_compute. reflexivity.
Defined.

(** C1: counterexample.  The run over the hand-written external-module
    declaration file [/proj/src/types.d.ts] does not write its raw text: it
    writes it wrapped in [declare module 'pkg/types'], with the [declare]
    keyword removed and the body indented. *)
Lemma declaration_input_not_verbatim :
  output_text (posix_generate (ex_options None) [ex_types_d_ts]) =
    lit "declare module 'pkg/types' {" ++ [LF; TAB] ++ lit "export var x: number;" ++
    [LF; LF] ++ lit "}" ++ [LF] /\
  output_text (posix_generate (ex_options None) [ex_types_d_ts]) <> ex_var_text.
Proof. split; vm_compute; [reflexivity | discriminate]. Qed.

Lemma main_alias_appended_witness :
  output_text (posix_generate (ex_options (Some (lit "pkg/a"))) [ex_b_ts]) =
  output_text (externs_events [LF] (ex_options (Some (lit "pkg/a"))) ++
               process_files CHAR_FORWARD_SLASH posix_dirname posix_join2 posix_normalize
                 (posix_resolve ex_cwd) [LF] script_parser (ex_options (Some (lit "pkg/a")))
                 [ex_b_ts]) ++
  alias_block [LF] [TAB] (lit "pkg") (lit "pkg/a").
Proof.
  exact (main_alias_appended CHAR_FORWARD_SLASH posix_dirname posix_join2 posix_normalize
           (posix_resolve ex_cwd) [LF] script_parser (ex_options (Some (lit "pkg/a")))
           [ex_b_ts] (lit "pkg/a") ltac:(vm_compute; reflexivity)).
Defined.

(** C4: counterexample.  With [main = './a'] and namespace [pkg] the
    appended block imports ['./a'], not ['pkg/a']. *)
Lemma main_alias_not_qualified :
  output_text (posix_generate (ex_options (Some (lit "./a"))) []) =
    alias_block [LF] [TAB] (lit "pkg") (lit "./a") /\
  output_text (posix_generate (ex_options (Some (lit "./a"))) []) <>
    alias_block [LF] [TAB] (lit "pkg") (lit "pkg/a").
Proof. split; vm_compute; [reflexivity | discriminate]. Qed.

(** C3: the run over [/proj/src/a.ts] (declaration emit reports TS4025),
    then [/proj/src/b.ts], with [main = './a']: the promise is rejected while
    processing [a.ts], [b.ts] is never processed, but the four writes of the
    alias block (and [output.end()]) are still issued after the
    rejection. *)
Lemma writes_after_rejection :
  after_reject (posix_generate (ex_options (Some (lit "./a"))) [ex_a_ts_error; ex_b_ts]) =
  Some [Write (lit "declare module 'pkg' {" ++ [LF; TAB]);
        Write (lit "import main = require('./a');" ++ [LF; TAB]);
        Write (lit "export = main;" ++ [LF]);
        Write (lit "}" ++ [LF]);
        Message (lit "Aliased main module pkg to ./a");
        End].
Proof. vm_compute. reflexivity. Qed.

(** ** Resolution of input paths *)






(** ** Diagnostics *)

Lemma line_starts_go_head (n : nat) :
  forall s pos lineStart, length s <= n -> lineStart <= pos ->
  exists rest, line_starts_go s pos lineStart = lineStart :: rest /\
               Forall (fun x => pos < x) rest.
Proof.
  induction n as [|n IH]; intros s pos ls Hlen Hle.
  - destruct s; [|simpl in Hlen; lia]. exists []. split; [reflexivity | constructor].
  - destruct s as [|c s']; [exists []; split; [reflexivity | constructor]|].
    simpl in Hlen. cbn [line_starts_go].
    destruct (ascii_eqb c CR).
    + destruct s' as [|d s''].
      * destruct (IH [] (S pos) (S pos) ltac:(simpl; lia) ltac:(lia)) as (r & E & F).
        rewrite E. eexists. split; [reflexivity|]. constructor; [lia|].
        eapply Forall_impl; [|exact F]. simpl; intros; lia.
      * destruct (ascii_eqb d LF).
        -- simpl in Hlen.
           destruct (IH s'' (S (S pos)) (S (S pos)) ltac:(lia) ltac:(lia)) as (r & E & F).
           rewrite E. eexists. split; [reflexivity|]. constructor; [lia|].
           eapply Forall_impl; [|exact F]. simpl; intros; lia.
        -- destruct (IH (d :: s'') (S pos) (S pos) ltac:(lia) ltac:(lia)) as (r & E & F).
           rewrite E. eexists. split; [reflexivity|]. constructor; [lia|].
           eapply Forall_impl; [|exact F]. simpl; intros; lia.
    + destruct (ascii_eqb c LF).
      * destruct (IH s' (S pos) (S pos) ltac:(lia) ltac:(lia)) as (r & E & F).
        rewrite E. eexists. split; [reflexivity|]. constructor; [lia|].
        eapply Forall_impl; [|exact F]. simpl; intros; lia.
      * destruct (IH s' (S pos) ls ltac:(lia) ltac:(lia)) as (r & E & F).
        rewrite E. eexists. split; [reflexivity|].
        eapply Forall_impl; [|exact F]. simpl; intros; lia.
Qed.

(** The first character of a file is at line 0, character 0. *)
Lemma position_zero (sf : SourceFile) : getLineAndCharacterOfPosition sf 0 = (0, 0).
Proof.
  unfold getLineAndCharacterOfPosition, computeLineStarts.
  destruct (line_starts_go_head (length (text sf)) (text sf) 0 0 (le_n _) (le_n _))
    as (rest & E & F).
  rewrite E. simpl. clear E.
  assert (Hf : filter (fun s => s <=? 0) rest = []).
  { induction F as [|x rest Hx F IH]; [reflexivity|]. simpl.
    destruct (x <=? 0) eqn:Ex; [apply Nat.leb_le in Ex; lia | exact IH]. }
  rewrite Hf. reflexivity.
Qed.

Lemma show_nat_no_LF (n : nat) : ~ In LF (show_nat n).
Proof.
  unfold show_nat. generalize (Nat.to_uint n) as u.
  induction u; simpl; try tauto;
    (intros [H|H]; [vm_compute in H; discriminate | exact (IHu H)]).
Qed.

Lemma fold_messages (ds : list Diagnostic) (m : str) :
  fold_left (fun message d => message ++ diagnostic_line d) ds m = m ++ flat_map diagnostic_line ds.
Proof.
  revert m. induction ds as [|d ds IH]; intros m; cbn [fold_left flat_map].
  - rewrite app_nil_r. reflexivity.
  - rewrite IH, app_assoc. reflexivity.
Qed.

Lemma count_LF_show (n : nat) : count_occ ascii_dec (show_nat n) LF = 0.
Proof. apply count_occ_not_In. apply show_nat_no_LF. Qed.

(** C8 (amended): the error is named [EmitterError]; its message is the
    header followed, for each diagnostic in order, by a line break and
    [file(line,col): error TS<code>: <text>], where [line] and [col] are
    TypeScript's 0-based line and character of the diagnostic's start plus
    one (the start of a file is reported as (1,1)) and [<text>] is the
    message text when it is a string; when no file name and no message text
    contains a line break, the message has exactly one line break per
    diagnostic. *)
Theorem getError_format (ds : list Diagnostic) :
  error_name (getError ds) = lit "EmitterError" /\
  message (getError ds) = lit "Declaration generation failed" ++ flat_map diagnostic_line ds /\
  (forall d s, messageText d = MessageString s ->
     let '(line, character) := getLineAndCharacterOfPosition (file d) (start d) in
     diagnostic_line d =
       [LF] ++ fileName (file d) ++ lit "(" ++ show_nat (line + 1) ++ lit "," ++
       show_nat (character + 1) ++ lit "): error TS" ++ show_nat (dcode d) ++ lit ": " ++ s) /\
  (forall sf, getLineAndCharacterOfPosition sf 0 = (0, 0)) /\
  (Forall (fun d => ~ In LF (fileName (file d)) /\
                    exists s, messageText d = MessageString s /\ ~ In LF s) ds ->
   count_occ ascii_dec (message (getError ds)) LF = length ds).
Proof.
  split; [reflexivity|].
  assert (EM : message (getError ds) =
               lit "Declaration generation failed" ++ flat_map diagnostic_line ds)
    by (unfold getError; simpl; apply fold_messages).
  split; [exact EM|].
  split.
  { intros d s Hs. unfold diagnostic_line. rewrite Hs.
    destruct (getLineAndCharacterOfPosition (file d) (start d)). reflexivity. }
  split; [exact position_zero|].
  intros HF. rewrite EM, count_occ_app.
  replace (count_occ ascii_dec (lit "Declaration generation failed") LF) with 0
    by (vm_compute; reflexivity).
  cbn [Nat.add]. clear EM. induction HF as [|d ds [Hfn (s & Hs & Hsn)] _ IH]; [reflexivity|].
  cbn [flat_map]. rewrite count_occ_app, IH.
  unfold diagnostic_line. rewrite Hs.
  destruct (getLineAndCharacterOfPosition (file d) (start d)) as [l c].
  cbv beta iota. cbn [template_of_message].
  rewrite !count_occ_app, !count_LF_show, (proj1 (count_occ_not_In _ _ _) Hfn),
    (proj1 (count_occ_not_In _ _ _) Hsn).
  cbn. reflexivity.
Qed.

Lemma getError_format_witness :
  count_occ ascii_dec (message (getError (emitDiagnostics ex_a_ts_error))) LF = 1.
Proof.
  destruct (getError_format (emitDiagnostics ex_a_ts_error)) as (_ & _ & _ & _ & H).
  apply H. repeat constructor.
  - apply (proj2 (count_occ_not_In ascii_dec _ _)). vm_compute. reflexivity.
  - eexists. split; [reflexivity|].
    apply (proj2 (count_occ_not_In ascii_dec _ _)). vm_compute. reflexivity.
Defined.

(** C8: counterexample.  A diagnostic with code 2322 at the start of
    [/proj/src/a.ts] with a string message is rendered as
    [error TS2322: <message>], not as [error T2322: <message>]. *)
Lemma diagnostic_line_not_as_stated :
  let d := {| file := ex_a_ts_file; start := 0; dcode := 2322;
              messageText := MessageString (lit "Type 'string' is not assignable to type 'number'.") |} in
  (message (getError [d]) =
    lit "Declaration generation failed" ++ [LF] ++
    lit "/proj/src/a.ts(1,1): error TS2322: Type 'string' is not assignable to type 'number'.") /\
  (message (getError [d]) <>
    lit "Declaration generation failed" ++ [LF] ++
    lit "/proj/src/a.ts(1,1): error T2322: Type 'string' is not assignable to type 'number'.").
Proof. split; vm_compute; [reflexivity | discriminate]. Qed.

(** ** Indentation *)

Lemma expand_no_dollar (t m b a : str) :
  ~ In "$"%char t -> expand_replacement t m b a = t.
Proof.
  induction t as [|c t IH]; intros H; [reflexivity|]. simpl.
  unfold ascii_eqb. destruct (ascii_dec c "$") as [E|_].
  - subst. exfalso. apply H. left. reflexivity.
  - f_equal. apply IH. intros H'. apply H. right. exact H'.
Qed.

Lemma expand_indent (indent m b a : str) :
  ~ In "$"%char indent -> expand_replacement (lit "$&" ++ indent) m b a = m ++ indent.
Proof. intros H. simpl. f_equal. apply expand_no_dollar. exact H. Qed.

Lemma is_prefix_app (p s : str) : is_prefix p (p ++ s) = true.
Proof.
  induction p as [|x p IH]; [reflexivity|]. simpl.
  destruct (ascii_dec x x); [exact IH | contradiction].
Qed.

Lemma is_prefix_head (e0 c : ascii) (es s : str) :
  c <> e0 -> is_prefix (e0 :: es) (c :: s) = false.
Proof. intros H. simpl. destruct (ascii_dec e0 c); [congruence | reflexivity]. Qed.

Section IndentLines.

Variables (e0 : ascii) (es indent : str).
Hypothesis e0_once : ~ In e0 es.
Hypothesis indent_plain : ~ In "$"%char indent.

Local Abbreviation eol := (e0 :: es).
Local Abbreviation R := (lit "$&" ++ indent).

(** Scanning a run of characters other than [e0] copies it. *)
Lemma replace_go_plain (l : str) : forall fuel before rest,
  ~ In e0 l -> length l < fuel ->
  replace_go eol R fuel before (l ++ rest) =
  l ++ replace_go eol R (fuel - length l) (before ++ l) rest.
Proof.
  induction l as [|c l IH]; intros fuel before rest Hl Hf.
  - simpl. rewrite app_nil_r, Nat.sub_0_r. reflexivity.
  - destruct fuel as [|fuel]; [simpl in Hf; lia|].
    assert (Hc : c <> e0) by (intros E; apply Hl; left; congruence).
    cbn [app replace_go]. rewrite (is_prefix_head e0 c es _ Hc). cbn [andb].
    simpl in Hl, Hf. rewrite IH by (tauto || lia).
    rewrite <- app_assoc. reflexivity.
Qed.

(** One step of the scan at a line break. *)
Lemma replace_go_eol (fuel : nat) (before x : str) :
  replace_go eol R (S fuel) before (eol ++ x) =
  if negb (is_prefix eol x || (length (eol ++ x) =? length eol))
  then expand_replacement R eol before x ++ replace_go eol R fuel (before ++ eol) x
  else e0 :: replace_go eol R fuel (before ++ [e0]) (es ++ x).
Proof.
  cbn [app replace_go].
  change (e0 :: es ++ x) with (eol ++ x).
  rewrite is_prefix_app. cbn [andb].
  replace (skipn (length eol) (eol ++ x)) with x
    by (rewrite skipn_app, skipn_all, Nat.sub_diag; reflexivity).
  reflexivity.
Qed.

Lemma lines_tail (rest : list str) : forall fuel before,
  Forall (fun l => ~ In e0 l) rest ->
  length (flat_map (fun l => eol ++ l) rest) < fuel ->
  replace_go eol R fuel before (flat_map (fun l => eol ++ l) rest) =
  flat_map (fun l => eol ++ (match l with [] => [] | _ => indent end) ++ l) rest.
Proof.
  induction rest as [|l rest IH]; intros fuel before Hf Hlen.
  - destruct fuel; reflexivity.
  - inversion Hf as [|? ? Hl Hrest]; subst.
    destruct fuel as [|fuel]; [lia|].
    set (T := flat_map (fun l => eol ++ l) rest) in *.
    assert (Hin : flat_map (fun l => eol ++ l) (l :: rest) = eol ++ (l ++ T)) by (cbn [flat_map]; rewrite <- app_assoc; reflexivity).
    rewrite Hin in Hlen |- *. clear Hin.
    rewrite replace_go_eol.
    rewrite !length_app in Hlen.
    destruct l as [|c l'].
    + (* an empty line: the line break is followed by another one or ends the text *)
      replace (negb (is_prefix eol ([] ++ T) || (length (eol ++ [] ++ T) =? length eol))) with false.
      2:{ destruct rest as [|l2 rest2].
          { unfold T. cbn [flat_map app]. rewrite app_nil_r, Nat.eqb_refl, orb_true_r. reflexivity. }
          assert (HT : is_prefix eol T = true)
            by (unfold T; cbn [flat_map]; rewrite <- app_assoc; apply is_prefix_app).
          cbn [app]. rewrite HT. reflexivity. }
      rewrite replace_go_plain by (exact e0_once || (simpl in Hlen; lia)).
      cbn [flat_map app]. rewrite ?app_nil_r. f_equal. f_equal. apply IH; [exact Hrest|].
      simpl in Hlen |- *. lia.
    + (* a non-empty line: the line break is matched and the indent inserted *)
      assert (Hc : c <> e0) by (intros E; apply Hl; left; congruence).
      replace (is_prefix eol ((c :: l') ++ T)) with false
        by (symmetry; apply is_prefix_head; exact Hc).
      replace (length (eol ++ (c :: l') ++ T) =? length eol) with false
        by (symmetry; apply Nat.eqb_neq; rewrite !length_app; simpl; lia).
      cbn [orb negb].
      rewrite expand_indent by exact indent_plain.
      rewrite replace_go_plain by (exact Hl || (simpl in Hlen |- *; lia)).
      rewrite IH; [| exact Hrest | simpl in Hlen |- *; lia].
      cbn [flat_map]. rewrite <- !app_assoc. reflexivity.
Qed.

(** With a line end free of regular-expression metacharacters whose first
    character occurs nowhere else in it (['\n'], ['\r\n']), lines free of
    that character and an indent without [$], the indentation step puts the
    indent before every non-empty line but the first. *)
Lemma indent_content_lines (lines : list str) :
  no_regex_meta eol = true ->
  Forall (fun l => ~ In e0 l) lines ->
  indent_content eol indent (join_lines eol lines) = indent_lines eol indent lines.
Proof.
  intros _ Hf. unfold indent_content.
  destruct lines as [|l0 rest]; [reflexivity|].
  inversion Hf as [|? ? Hl0 Hrest]; subst. cbn [join_lines indent_lines].
  rewrite replace_go_plain by (exact Hl0 || (rewrite length_app; lia)).
  f_equal. apply lines_tail; [exact Hrest|]. rewrite length_app. lia.
Qed.

End IndentLines.

(** C7: the indent is appended to the replacement template ['$&' + indent],
    so [$] patterns in the configured indent are expanded instead of being
    inserted.  With line end ["\n"] the text ["a\nb"] is indented to
    ["a\n\tb"] by a tab, but the indent ["$&"] turns it into ["a\n\nb"]: a
    line break is inserted, the second line gets no indentation, and the
    text ["a\n$&b"] that inserting the indent would give is not produced. *)
Theorem indent_template_expanded :
  indent_content [LF] [TAB] (lit "a" ++ [LF] ++ lit "b") = lit "a" ++ [LF; TAB] ++ lit "b" /\
  indent_content [LF] (lit "$&") (lit "a" ++ [LF] ++ lit "b") = lit "a" ++ [LF; LF] ++ lit "b" /\
  indent_content [LF] (lit "$&") (lit "a" ++ [LF] ++ lit "b") <> lit "a" ++ [LF] ++ lit "$&" ++ lit "b".
Proof. split; [|split]; vm_compute; [reflexivity | reflexivity | discriminate]. Qed.

(** * Further properties of the code *)

Ltac not_in := apply (proj2 (count_occ_not_In ascii_dec _ _)); vm_compute; reflexivity.

(** ** Indentation *)

Lemma is_prefix_split (p s : str) : is_prefix p s = true -> s = p ++ skipn (length p) s.
Proof.
  revert s. induction p as [|x p IH]; intros s H; [reflexivity|].
  destruct s as [|y s]; [discriminate|]. simpl in H.
  destruct (ascii_dec x y) as [<-|]; [|discriminate].
  simpl. f_equal. apply IH. exact H.
Qed.

Lemma expand_amp (m b a : str) : expand_replacement (lit "$&") m b a = m.
Proof. simpl. apply app_nil_r. Qed.

(** With the template ['$&'] every match is replaced by itself. *)
Lemma replace_go_amp (eol : str) (fuel : nat) : forall before rest,
  length rest < fuel -> replace_go eol (lit "$&") fuel before rest = rest.
Proof.
  induction fuel as [|fuel IH]; intros before rest H; [lia|].
  destruct rest as [|c rest']; [reflexivity|].
  cbn [replace_go].
  match goal with |- context [if ?b then _ else _] => destruct b eqn:E end.
  - apply andb_true_iff in E as [E1 E2].
    rewrite expand_amp.
    destruct eol as [|e es]; [simpl in E2; discriminate|].
    rewrite IH by (rewrite length_skipn; simpl in H |- *; lia).
    symmetry. exact (is_prefix_split _ _ E1).
  - rewrite IH by (simpl in H; lia). reflexivity.
Qed.

(** A text in which the first character of the line end never occurs is
    scanned without a match. *)
Lemma replace_go_absent (e0 : ascii) (es R rest : str) : forall fuel before,
  ~ In e0 rest -> replace_go (e0 :: es) R fuel before rest = rest.
Proof.
  induction rest as [|c rest IH]; intros fuel before H; destruct fuel; try reflexivity.
  cbn [replace_go]. rewrite is_prefix_head by (intros E; apply H; left; congruence).
  cbn [andb]. f_equal. apply IH. intros H'. apply H. right. exact H'.
Qed.

(** The indentation step with the empty indent leaves every text
    unchanged, whatever the line end. *)
Theorem indent_content_empty_indent (eol content : str) :
  indent_content eol [] content = content.
Proof. unfold indent_content. rewrite app_nil_r. apply replace_go_amp. lia. Qed.

(** With a line end free of regular-expression metacharacters, a text
    without line break (the first character of the line end does not occur
    in it) is left unchanged by the indentation step, whatever the indent. *)
Theorem indent_content_one_line (e0 : ascii) (es indent content : str) :
  no_regex_meta (e0 :: es) = true ->
  ~ In e0 content -> indent_content (e0 :: es) indent content = content.
Proof. intros _ H. unfold indent_content. apply replace_go_absent. exact H. Qed.

Lemma indent_content_one_line_witness :
  indent_content [CR; LF] (lit "$&") (lit "export var x: number;") = lit "export var x: number;".
Proof. apply indent_content_one_line; [vm_compute; reflexivity | not_in]. Defined.

Lemma indent_content_lines_witness :
  indent_content [CR; LF] [TAB] (join_lines [CR; LF] [lit "a {"; []; lit "b"; []])
  = lit "a {" ++ [CR; LF; CR; LF; TAB] ++ lit "b" ++ [CR; LF].
Proof.
  rewrite (indent_content_lines CR [LF] [TAB]); [reflexivity | not_in | not_in | vm_compute; reflexivity |].
  repeat (apply Forall_cons; [not_in|]). apply Forall_nil.
Defined.

(** ** Line and character of a position *)

Lemma line_starts_no_CR (s : str) : forall pos ls, ~ In CR s ->
  line_starts_go s pos ls = ls :: map S (lf_positions s pos).
Proof.
  induction s as [|c s IH]; intros pos ls H; [reflexivity|].
  assert (Hs : ~ In CR s) by (intros H'; apply H; right; exact H').
  cbn [line_starts_go lf_positions]. unfold ascii_eqb.
  destruct (ascii_dec c CR) as [E|_]; [subst; exfalso; apply H; left; reflexivity|].
  destruct (ascii_dec c LF).
  - fold ascii_eqb. rewrite IH by exact Hs. reflexivity.
  - fold ascii_eqb. apply IH. exact Hs.
Qed.

Lemma lf_positions_app (x y : str) : forall k,
  lf_positions (x ++ y) k = lf_positions x k ++ lf_positions y (k + length x).
Proof.
  induction x as [|c x IH]; intros k; simpl.
  - rewrite Nat.add_0_r. reflexivity.
  - replace (k + S (length x)) with (S k + length x) by lia.
    destruct (ascii_eqb c LF); rewrite IH; reflexivity.
Qed.

Lemma lf_positions_bounds (s : str) : forall k i,
  In i (lf_positions s k) -> k <= i < k + length s.
Proof.
  induction s as [|c s IH]; intros k i H; simpl in H; [contradiction|].
  simpl. destruct (ascii_eqb c LF).
  - destruct H as [<-|H]; [lia|]. apply IH in H. lia.
  - apply IH in H. lia.
Qed.

Lemma lf_positions_none (s : str) (k : nat) : ~ In LF s -> lf_positions s k = [].
Proof.
  revert k. induction s as [|c s IH]; intros k H; [reflexivity|]. simpl.
  unfold ascii_eqb. destruct (ascii_dec c LF) as [E|_].
  - subst. exfalso. apply H. left. reflexivity.
  - fold ascii_eqb. apply IH. intros H'. apply H. right. exact H'.
Qed.

Lemma lf_positions_count (s : str) : forall k,
  length (lf_positions s k) = count_occ ascii_dec s LF.
Proof.
  induction s as [|c s IH]; intros k; [reflexivity|]. simpl.
  unfold ascii_eqb. destruct (ascii_dec c LF); simpl; rewrite IH; reflexivity.
Qed.

Lemma filter_keep_all {A} (f : A -> bool) (l : list A) :
  (forall x, In x l -> f x = true) -> filter f l = l.
Proof.
  induction l as [|x l IH]; intros H; [reflexivity|]. simpl.
  rewrite (H x (or_introl eq_refl)). f_equal. apply IH. intros y Hy. apply H. right. exact Hy.
Qed.

Lemma filter_drop_all {A} (f : A -> bool) (l : list A) :
  (forall x, In x l -> f x = false) -> filter f l = [].
Proof.
  induction l as [|x l IH]; intros H; [reflexivity|]. simpl.
  rewrite (H x (or_introl eq_refl)). apply IH. intros y Hy. apply H. right. exact Hy.
Qed.

(** In a text whose line breaks are all ['\n'], the position reached
    after [a ++ b], where [a] is empty or ends with a line break and [b]
    has no line break, is on the 0-based line numbered by the line breaks
    of [a], at the 0-based character [length b]. *)
Theorem line_and_character (sf : SourceFile) (a b post : str) :
  text sf = a ++ b ++ post -> ~ In CR (text sf) -> ~ In LF b ->
  (a = [] \/ exists a', a = a' ++ [LF]) ->
  getLineAndCharacterOfPosition sf (length a + length b) =
  (count_occ ascii_dec a LF, length b).
Proof.
  intros Ht Hcr Hb Ha. unfold getLineAndCharacterOfPosition, computeLineStarts.
  rewrite (line_starts_no_CR _ 0 0 Hcr), Ht, !lf_positions_app, (lf_positions_none b) by exact Hb.
  rewrite app_nil_l, map_app.
  set (La := lf_positions a 0).
  set (Lp := lf_positions post (0 + length a + length b)).
  assert (HF : filter (fun s => s <=? length a + length b) (0 :: map S La ++ map S Lp) =
               0 :: map S La).
  { cbn [filter]. replace (0 <=? length a + length b) with true by (symmetry; apply Nat.leb_le; lia).
    f_equal. rewrite filter_app, filter_keep_all, filter_drop_all, app_nil_r; [reflexivity| |].
    - intros x Hx. apply in_map_iff in Hx as (i & <- & Hi).
      apply lf_positions_bounds in Hi. apply Nat.leb_gt. lia.
    - intros x Hx. apply in_map_iff in Hx as (i & <- & Hi).
      apply lf_positions_bounds in Hi. apply Nat.leb_le. lia. }
  rewrite HF. cbn [length]. rewrite length_map, Nat.sub_succ, Nat.sub_0_r.
  unfold La. rewrite lf_positions_count.
  destruct Ha as [->|(a' & ->)].
  - cbn [count_occ nth length]. f_equal. lia.
  - rewrite lf_positions_app. cbn [lf_positions].
    replace (ascii_eqb LF LF) with true by (unfold ascii_eqb; destruct (ascii_dec LF LF); congruence).
    rewrite count_occ_app. cbn [count_occ]. destruct (ascii_dec LF LF) as [_|n]; [|contradiction].
    rewrite <- (lf_positions_count a' 0), Nat.add_1_r. cbn [nth].
    rewrite !map_app, <- app_assoc.
    rewrite app_nth2 by (rewrite length_map; lia).
    rewrite length_map, Nat.sub_diag. cbn [map nth app]. rewrite length_app. cbn [length].
    f_equal. lia.
Qed.

Lemma line_and_character_witness :
  getLineAndCharacterOfPosition ex_a_ts_file 24 = (1, 11).
Proof.
  apply (line_and_character ex_a_ts_file (lit "class Foo {}" ++ [LF]) (lit "export var ")
           (lit "x: Foo;" ++ [LF])); [reflexivity | not_in | not_in |].
  right. exists (lit "class Foo {}"). reflexivity.
Defined.

(** ** Input file names *)

(** Under a POSIX host with working directory [cwd], every input path
    that is absolute is used as [path.resolve] normalises it, whatever the
    base directory. *)
Theorem getFilenames_absolute_inputs (cwd baseDir : str) (files : list str) :
  Forall (fun f => starts_with_char CHAR_FORWARD_SLASH f = true) files ->
  getFilenames (posix_resolve cwd) baseDir files = map (fun f => posix_resolve cwd [f]) files.
Proof.
  intros Hf. unfold getFilenames. apply map_ext_in. intros f Hin.
  rewrite Forall_forall in Hf. specialize (Hf f Hin).
  assert (E : posix_resolve cwd [baseDir; f] = posix_resolve cwd [f]).
  { unfold posix_resolve. cbn [rev app].
    destruct f as [|c f']; [discriminate|]. cbn [resolve_go]. rewrite Hf. reflexivity. }
  rewrite E. destruct (is_prefix baseDir (posix_resolve cwd [f])); reflexivity.
Qed.

Lemma getFilenames_absolute_inputs_witness :
  getFilenames (posix_resolve ex_cwd) (lit "/proj/src") [lit "/lib/./x.ts"; lit "/proj/src/../y.ts"] =
  [lit "/lib/x.ts"; lit "/proj/y.ts"].
Proof.
  rewrite getFilenames_absolute_inputs; [vm_compute; reflexivity|].
  repeat constructor.
Defined.

(** ** The loop of [generate] *)

Section Orchestration.

Variable sep : ascii.
Variable dirname : str -> str.
Variable join : str -> str -> str.
Variable normalize : str -> str.
Variable resolve : list str -> str.
Variable osEOL : str.
Variable createSourceFile : str -> str -> SourceFile.

Local Abbreviation pfiles opts := (process_files sep dirname join normalize resolve osEOL createSourceFile opts).
Local Abbreviation gen opts := (generate sep dirname join normalize resolve osEOL createSourceFile opts).
Local Abbreviation run opts := (run_with_stream sep dirname join normalize resolve osEOL createSourceFile opts).

Lemma writeDeclaration_writes (opts : Options) (sf : SourceFile) :
  Forall (fun e => is_write e = true) (writeDeclaration sep dirname join resolve osEOL opts sf).
Proof.
  unfold writeDeclaration. destruct (externalModuleIndicator sf); repeat constructor.
Qed.

Lemma writeFile_writes (opts : Options) (emitted : list (str * str)) :
  Forall (fun e => is_write e = true)
    (flat_map (writeFile sep dirname join resolve osEOL createSourceFile opts) emitted).
Proof.
  induction emitted as [|[fn data] emitted IH]; [constructor|].
  cbn [flat_map]. apply Forall_app. split; [|exact IH].
  unfold writeFile. destruct (str_eqb _ _); [apply writeDeclaration_writes | constructor].
Qed.

Lemma writes_no_reject (l : list Event) :
  Forall (fun e => is_write e = true) l -> after_reject l = None.
Proof.
  induction 1 as [|e l He _ IH]; [reflexivity|].
  destruct e; try discriminate. exact IH.
Qed.

Lemma writes_no_message (l : list Event) :
  Forall (fun e => is_write e = true) l -> filter is_message l = [].
Proof.
  induction 1 as [|e l He _ IH]; [reflexivity|].
  destruct e; try discriminate. exact IH.
Qed.

Lemma writes_no_end (l : list Event) :
  Forall (fun e => is_write e = true) l -> ~ In End l.
Proof.
  induction 1 as [|e l He _ IH]; [tauto|].
  intros [E|H]; [subst e; discriminate | exact (IH H)].
Qed.

Lemma process_files_no_end (opts : Options) (pfs : list ProgramFile) : ~ In End (pfiles opts pfs).
Proof.
  induction pfs as [|pf pfs IH]; [tauto|]. cbn [process_files].
  destruct (negb _); [exact IH|]. destruct (is_excluded _ _ _); [exact IH|].
  intros [H|H]; [discriminate|].
  destruct (str_eqb _ _).
  - apply in_app_or in H as [H|H]; [exact (writes_no_end _ (writeDeclaration_writes _ _) H) | exact (IH H)].
  - apply in_app_or in H as [H|H]; [exact (writes_no_end _ (writeFile_writes _ _) H)|].
    destruct (_ || _).
    + destruct H as [H|[]]; discriminate.
    + exact (IH H).
Qed.

Lemma externs_no_end (opts : Options) : ~ In End (externs_events osEOL opts).
Proof.
  unfold externs_events. destruct (externs opts) as [paths|]; [|tauto].
  intros H. apply in_flat_map in H as (p & _ & H). simpl in H.
  destruct H as [H|[H|[]]]; discriminate.
Qed.

Lemma main_no_end (opts : Options) : ~ In End (main_events osEOL opts).
Proof.
  unfold main_events. destruct (truthy_str (main opts)); [|tauto].
  simpl. intros H. repeat destruct H as [H|H]; try discriminate; contradiction.
Qed.

Lemma externs_no_reject (opts : Options) : after_reject (externs_events osEOL opts) = None.
Proof.
  unfold externs_events. destruct (externs opts) as [paths|]; [|reflexivity].
  induction paths as [|p paths IH]; [reflexivity|]. exact IH.
Qed.

Lemma main_no_reject (opts : Options) : after_reject (main_events osEOL opts) = None.
Proof. unfold main_events. destruct (truthy_str (main opts)); reflexivity. Qed.

(** [generate] ends the output stream exactly once: [output.end()] is
    issued in every run, rejected or not, and it is the last event. *)
Theorem generate_ends_once (opts : Options) (pfs : list ProgramFile) :
  In End (gen opts pfs) /\
  forall pre post, gen opts pfs = pre ++ End :: post -> post = [].
Proof.
  unfold generate. split.
  - apply in_or_app. right. apply in_or_app. right. apply in_or_app. right. left. reflexivity.
  - intros pre post E.
    destruct post as [|e post'] using rev_ind; [reflexivity|]. exfalso.
    assert (E' : (externs_events osEOL opts ++ pfiles opts pfs ++ main_events osEOL opts) ++ [End] =
                 (pre ++ End :: post') ++ [e]).
    { rewrite <- !app_assoc. rewrite E. reflexivity. }
    apply app_inj_tail in E' as [E' _].
    assert (H : In End (pre ++ End :: post')) by (apply in_or_app; right; left; reflexivity).
    rewrite <- E' in H.
    apply in_app_or in H as [H|H]; [|apply in_app_or in H as [H|H]].
    + exact (externs_no_end opts H).
    + exact (process_files_no_end opts pfs H).
    + exact (main_no_end opts H).
Qed.

(** The loop over the program's files stops at the first failure: it
    rejects at most once, and nothing follows the rejection within the
    loop (no later file is processed). *)
Theorem process_files_stops_at_rejection (opts : Options) (pfs : list ProgramFile) :
  after_reject (pfiles opts pfs) = None \/ after_reject (pfiles opts pfs) = Some [].
Proof.
  induction pfs as [|pf pfs IH]; [left; reflexivity|]. cbn [process_files].
  destruct (negb _); [exact IH|]. destruct (is_excluded _ _ _); [exact IH|].
  cbn [after_reject]. destruct (str_eqb _ _).
  - rewrite after_reject_app, writes_no_reject by apply writeDeclaration_writes. exact IH.
  - rewrite after_reject_app, writes_no_reject by apply writeFile_writes.
    destruct (_ || _); [right; reflexivity | exact IH].
Qed.

Lemma executor_no_rejection (opts : Options) (pfs : list ProgramFile) :
  Forall (fun pf => emitSkipped pf = false /\ emitDiagnostics pf = []) pfs ->
  after_reject (gen opts pfs) = None.
Proof.
  intros Hc. unfold generate.
  rewrite !after_reject_app, externs_no_reject, main_no_reject.
  assert (H : after_reject (pfiles opts pfs) = None).
  { induction Hc as [|pf pfs [Hs Hd] _ IH]; [reflexivity|]. cbn [process_files].
    destruct (negb _); [exact IH|]. destruct (is_excluded _ _ _); [exact IH|].
    cbn [after_reject]. destruct (str_eqb _ _).
    - rewrite after_reject_app, writes_no_reject by apply writeDeclaration_writes. exact IH.
    - rewrite after_reject_app, writes_no_reject by apply writeFile_writes.
      rewrite Hs, Hd. exact IH. }
  rewrite H. reflexivity.
Qed.

(** When no file's emit is skipped and no file's emit reports a diagnostic,
    whatever the semantic, syntactic and declaration diagnostics of the
    files, the only rejection of a run is the one of the stream's error
    handler: the run is rejected exactly when the output stream reports an
    error, and then with that error, as its last event. *)
Theorem no_rejection_without_emit_errors (opts : Options) (pfs : list ProgramFile)
    (o : StreamOutcome) :
  Forall (fun pf => emitSkipped pf = false /\ emitDiagnostics pf = []) pfs ->
  (after_reject (run opts pfs o) = None <-> o = StreamClosed) /\
  (forall e, o = StreamError e -> exists pre, run opts pfs o = pre ++ [Reject e] /\
     after_reject pre = None).
Proof.
  intros Hc. unfold run_with_stream.
  pose proof (executor_no_rejection opts pfs Hc) as H.
  split.
  - rewrite after_reject_app, H. destruct o; simpl; split; congruence.
  - intros e ->. exists (gen opts pfs). split; [reflexivity | exact H].
Qed.

(** Files outside the base directory (after [path.normalize]) and
    excluded files leave no trace: the loop over the program's files gives
    the same events as the loop over the considered files alone. *)
Theorem process_files_considered (opts : Options) (pfs : list ProgramFile) :
  pfiles opts pfs = pfiles opts (filter (considered normalize resolve opts) pfs).
Proof.
  induction pfs as [|pf pfs IH]; [reflexivity|].
  cbn [filter process_files].
  assert (Ec : considered normalize resolve opts pf =
               is_prefix (resolvedBaseDir resolve opts) (normalize (fileName (sourceFile pf))) &&
               negb (is_excluded resolve opts (fileName (sourceFile pf)))) by reflexivity.
  rewrite Ec.
  destruct (is_prefix (resolvedBaseDir resolve opts) (normalize (fileName (sourceFile pf)))) eqn:E1;
    cbn [negb andb]; [|exact IH].
  destruct (is_excluded resolve opts (fileName (sourceFile pf))) eqn:E2; cbn [negb]; [exact IH|].
  cbn [process_files]. rewrite E1, E2. cbn [negb]. rewrite <- IH. reflexivity.
Qed.

(** When no emit fails, every considered file is processed, once and in
    the order of the program: the messages of the loop are one
    [Processing <file name>] per considered file. *)
Theorem processing_messages (opts : Options) (pfs : list ProgramFile) :
  Forall (fun pf => emitSkipped pf = false /\ emitDiagnostics pf = []) pfs ->
  filter is_message (pfiles opts pfs) =
  map (fun pf => Message (lit "Processing " ++ fileName (sourceFile pf)))
      (filter (considered normalize resolve opts) pfs).
Proof.
  induction 1 as [|pf pfs [Hs Hd] _ IH]; [reflexivity|].
  cbn [filter process_files].
  assert (Ec : considered normalize resolve opts pf =
               is_prefix (resolvedBaseDir resolve opts) (normalize (fileName (sourceFile pf))) &&
               negb (is_excluded resolve opts (fileName (sourceFile pf)))) by reflexivity.
  rewrite Ec.
  destruct (is_prefix (resolvedBaseDir resolve opts) (normalize (fileName (sourceFile pf))));
    cbn [negb andb]; [|exact IH].
  destruct (is_excluded resolve opts (fileName (sourceFile pf))); cbn [negb]; [exact IH|].
  cbn [filter is_message map]. f_equal.
  destruct (str_eqb _ _).
  - rewrite filter_app, writes_no_message by apply writeDeclaration_writes. exact IH.
  - rewrite filter_app, writes_no_message by apply writeFile_writes.
    rewrite Hs, Hd. exact IH.
Qed.

End Orchestration.

Lemma no_rejection_without_emit_errors_witness :
  semanticDiagnostics ex_a_ts_semantic <> [] /\
  after_reject (run_with_stream CHAR_FORWARD_SLASH posix_dirname posix_join2 posix_normalize
    (posix_resolve ex_cwd) [LF] script_parser (ex_options None) [ex_a_ts_semantic; ex_b_ts]
    StreamClosed) = None.
Proof.
  split; [discriminate|].
  apply (no_rejection_without_emit_errors CHAR_FORWARD_SLASH posix_dirname posix_join2
    posix_normalize (posix_resolve ex_cwd) [LF] script_parser (ex_options None)
    [ex_a_ts_semantic; ex_b_ts] StreamClosed); [repeat constructor | reflexivity].
Defined.

Lemma processing_messages_witness :
  filter is_message
    (process_files CHAR_FORWARD_SLASH posix_dirname posix_join2 posix_normalize
       (posix_resolve ex_cwd) [LF] script_parser (ex_options None)
       [ex_a_ts_semantic; no_diagnostics (script_parser (lit "/lib/lib.d.ts") []) []; ex_b_ts]) =
  [Message (lit "Processing /proj/src/a.ts"); Message (lit "Processing /proj/src/b.ts")].
Proof.
  rewrite processing_messages; [vm_compute; reflexivity|]. repeat constructor.
Defined.
